(** * godel_noether: sequencing and margin trimming of surface paths

    A shallow embedding of [src/noether_path_planner.cpp]: the helpers of
    the anonymous namespace ([toEigen], [toMsg], [toEndPoints],
    [reversePathAndPoses], [makeSequence], [average],
    [averageQuaternion], [longestSegment], [sequence], [pointDistance],
    [segmentLength], [approxEqual], [applyMargins]) and the properties
    the specification states about them.

    Numbers.  A C++ [double] is modelled as a real number of [R]: sums,
    products, square roots and comparisons are the exact ones.  Rounding,
    infinities and NaN are outside this model.

    Library code.  Eigen's small algebraic operations are written out by
    their formulas.  Two library routines are taken as arguments of the
    functions that call them, because their result is fixed by a contract
    and not by a formula: [std::sort] (order of equivalent elements
    unspecified) and [Eigen::SelfAdjointEigenSolver].

    Exceptions and output.  [applyMargins] can throw [std::logic_error]; it
    returns an [outcome].  What it writes to [std::cout] is left out.

    Empty segments.  [front()] and [back()] of an empty vector are
    undefined in the source; the statements about [longestSegment],
    [toEndPoints] and [sequence] are made for non-empty segments.

    Rotations.  [rotation()] of a transform is modelled by its linear
    part, which is exact for rigid transforms; the statement about the
    rotations [applyMargins] returns is made for rigid transforms.

    Layout.  The embedding of the source comes first, then the vocabulary
    of the statements and the sample data, then the properties: margins
    (C3, C4, C10), reference segment (C8), sequencing (C6, C1),
    averaging (C9), the three-lane scenario (C7), the cuts found by the
    scans and the length law of the margins (C5, C2); then further
    properties (X1 to X22) of the margins, of
    [generatePath] from the planned paths on, of the conversions, of
    [reversePathAndPoses], of the reference frame, of the order of the
    sequence and of the tools read by [loadTool]. *)

From Stdlib Require Import String.
From Stdlib Require Import Reals Lra Lia Psatz List Permutation Sorted Bool Arith.
Import ListNotations.
Local Open Scope R_scope.

(** ** Scalars *)

(** [p < q] on doubles, as a boolean. *)
Definition Rltb (p q : R) : bool := if Rlt_dec p q then true else false.

(** ** Eigen: vectors, matrices, quaternions, transforms *)

Record Vector3d : Type := vec3 { vec_x : R; vec_y : R; vec_z : R }.

Record Matrix3d : Type := mat3 {
  m00 : R; m01 : R; m02 : R;
  m10 : R; m11 : R; m12 : R;
  m20 : R; m21 : R; m22 : R }.

(** Coefficients in Eigen's storage order [x, y, z, w]. *)
Record Quaterniond : Type := quat_xyzw { q_x : R; q_y : R; q_z : R; q_w : R }.

(** [Eigen::Quaterniond(w, x, y, z)]. *)
Definition quat_wxyz (w x y z : R) : Quaterniond := quat_xyzw x y z w.

(** [Eigen::Affine3d]: a linear part and a translation. *)
Record Affine3d : Type := affine { linear : Matrix3d; translation : Vector3d }.

Definition vector_Affine3d : Type := list Affine3d.

Definition vsub (p q : Vector3d) : Vector3d :=
  vec3 (vec_x p - vec_x q) (vec_y p - vec_y q) (vec_z p - vec_z q).

Definition vadd (p q : Vector3d) : Vector3d :=
  vec3 (vec_x p + vec_x q) (vec_y p + vec_y q) (vec_z p + vec_z q).

Definition vscale (p : Vector3d) (k : R) : Vector3d :=
  vec3 (vec_x p * k) (vec_y p * k) (vec_z p * k).

Definition squaredNorm (p : Vector3d) : R :=
  vec_x p * vec_x p + vec_y p * vec_y p + vec_z p * vec_z p.

Definition norm (p : Vector3d) : R := sqrt (squaredNorm p).

(** [v.normalized()]: [v] divided by its norm.  (At the zero vector Eigen's
    releases differ; no result below depends on that value.) *)
Definition normalized (p : Vector3d) : Vector3d :=
  vec3 (vec_x p / norm p) (vec_y p / norm p) (vec_z p / norm p).

Definition Matrix3d_Identity : Matrix3d := mat3 1 0 0 0 1 0 0 0 1.

Definition mat_mul (m n : Matrix3d) : Matrix3d :=
  mat3 (m00 m * m00 n + m01 m * m10 n + m02 m * m20 n)
       (m00 m * m01 n + m01 m * m11 n + m02 m * m21 n)
       (m00 m * m02 n + m01 m * m12 n + m02 m * m22 n)
       (m10 m * m00 n + m11 m * m10 n + m12 m * m20 n)
       (m10 m * m01 n + m11 m * m11 n + m12 m * m21 n)
       (m10 m * m02 n + m11 m * m12 n + m12 m * m22 n)
       (m20 m * m00 n + m21 m * m10 n + m22 m * m20 n)
       (m20 m * m01 n + m21 m * m11 n + m22 m * m21 n)
       (m20 m * m02 n + m21 m * m12 n + m22 m * m22 n).

Definition mat_vec (m : Matrix3d) (p : Vector3d) : Vector3d :=
  vec3 (m00 m * vec_x p + m01 m * vec_y p + m02 m * vec_z p)
       (m10 m * vec_x p + m11 m * vec_y p + m12 m * vec_z p)
       (m20 m * vec_x p + m21 m * vec_y p + m22 m * vec_z p).

(** Product of two transforms: [(l * r)(p) = l (r p)]. *)
Definition affine_mul (l r : Affine3d) : Affine3d :=
  affine (mat_mul (linear l) (linear r))
         (vadd (mat_vec (linear l) (translation r)) (translation l)).

(** [t.rotation()].  Eigen returns the rotation factor of the linear
    part; on a rigid transform, whose linear part is a rotation matrix,
    that factor is the linear part itself, which is what is returned
    here.  The transforms of the planner come from poses with a unit
    quaternion and are rigid; a statement that reads a rotation off an
    arbitrary transform carries the hypothesis [rigid] defined below. *)
Definition rotation (t : Affine3d) : Matrix3d := linear t.

Definition quat_squaredNorm (q : Quaterniond) : R :=
  q_x q * q_x q + q_y q * q_y q + q_z q * q_z q + q_w q * q_w q.

(** [q.inverse()]: the conjugate over the squared norm, the zero quaternion
    when the norm is not positive. *)
Definition quat_inverse (q : Quaterniond) : Quaterniond :=
  let n2 := quat_squaredNorm q in
  if Rgt_dec n2 0
  then quat_xyzw (- q_x q / n2) (- q_y q / n2) (- q_z q / n2) (q_w q / n2)
  else quat_xyzw 0 0 0 0.

(** [q.toRotationMatrix()]. *)
Definition toRotationMatrix (q : Quaterniond) : Matrix3d :=
  let tx := 2 * q_x q in
  let ty := 2 * q_y q in
  let tz := 2 * q_z q in
  let twx := tx * q_w q in
  let twy := ty * q_w q in
  let twz := tz * q_w q in
  let txx := tx * q_x q in
  let txy := ty * q_x q in
  let txz := tz * q_x q in
  let tyy := ty * q_y q in
  let tyz := tz * q_y q in
  let tzz := tz * q_z q in
  mat3 (1 - (tyy + tzz)) (txy - twz) (txz + twy)
       (txy + twz) (1 - (txx + tzz)) (tyz - twx)
       (txz - twy) (tyz + twx) (1 - (txx + tyy)).

(** [Eigen::Quaterniond(m)] for a 3x3 matrix [m]: the branch on the trace
    and, below it, on the largest diagonal coefficient. *)
Definition quat_of_matrix (m : Matrix3d) : Quaterniond :=
  let t := m00 m + m11 m + m22 m in
  if Rgt_dec t 0 then
    let t := sqrt (t + 1) in
    let w := (1 / 2) * t in
    let t := (1 / 2) / t in
    quat_wxyz w ((m21 m - m12 m) * t) ((m02 m - m20 m) * t) ((m10 m - m01 m) * t)
  else
    if Rgt_dec (m22 m) (if Rgt_dec (m11 m) (m00 m) then m11 m else m00 m) then
      (* i = 2, j = 0, k = 1 *)
      let t := sqrt (m22 m - m00 m - m11 m + 1) in
      let qi := (1 / 2) * t in
      let t := (1 / 2) / t in
      quat_wxyz ((m10 m - m01 m) * t) ((m02 m + m20 m) * t) ((m12 m + m21 m) * t) qi
    else if Rgt_dec (m11 m) (m00 m) then
      (* i = 1, j = 2, k = 0 *)
      let t := sqrt (m11 m - m22 m - m00 m + 1) in
      let qi := (1 / 2) * t in
      let t := (1 / 2) / t in
      quat_wxyz ((m02 m - m20 m) * t) ((m01 m + m10 m) * t) qi ((m21 m + m12 m) * t)
    else
      (* i = 0, j = 1, k = 2 *)
      let t := sqrt (m00 m - m11 m - m22 m + 1) in
      let qi := (1 / 2) * t in
      let t := (1 / 2) / t in
      quat_wxyz ((m21 m - m12 m) * t) qi ((m10 m + m01 m) * t) ((m20 m + m02 m) * t).

(** [Eigen::AngleAxisd(angle, Eigen::Vector3d::UnitZ())] as a matrix. *)
Definition AngleAxis_UnitZ (angle : R) : Matrix3d :=
  mat3 (cos angle) (- sin angle) 0
       (sin angle) (cos angle) 0
       0 0 1.

(** [M_PI]. *)
Definition M_PI : R := PI.

(** ** Messages and their conversions (eigen_conversions) *)

(** [geometry_msgs::Pose]. *)
Record Pose : Type := pose_msg { position : Vector3d; orientation : Quaterniond }.

(** [geometry_msgs::PoseArray], reduced to its [poses]. *)
Definition PoseArray : Type := list Pose.

(** [tf::poseMsgToEigen]: translation times the orientation's rotation. *)
Definition poseMsgToEigen (m : Pose) : Affine3d :=
  affine (toRotationMatrix (orientation m)) (position m).

(** [tf::poseEigenToMsg]: the quaternion of the linear part, negated when
    its [w] is negative. *)
Definition poseEigenToMsg (e : Affine3d) : Pose :=
  let q := quat_of_matrix (linear e) in
  pose_msg (translation e)
           (if Rlt_dec (q_w q) 0
            then quat_xyzw (- q_x q) (- q_y q) (- q_z q) (- q_w q)
            else q).

(** [segment[i]], for an index the source keeps in range. *)
Definition Affine3d_Identity : Affine3d := affine Matrix3d_Identity (vec3 0 0 0).

Definition at_ (segment : vector_Affine3d) (i : nat) : Affine3d :=
  nth i segment Affine3d_Identity.

(** [segment.front()] and [segment.back()].  On an empty vector the source
    is undefined; the value given here for it is arbitrary, and the
    statements that go through these two take segments with a sample. *)
Definition front (segment : vector_Affine3d) : Affine3d := at_ segment 0.

Definition back (segment : vector_Affine3d) : Affine3d :=
  at_ segment (length segment - 1).

(** ** The structures of the sequencer *)

(** [PathEndPoints]: fields [a], [b], [id]. *)
Record PathEndPoints : Type := end_points_of {
  ep_a : Vector3d;
  ep_b : Vector3d;
  ep_id : nat }.

(** [SequencePoint]: fields [id], [from_a]. *)
Record SequencePoint : Type := sequence_point {
  sp_id : nat;
  sp_from_a : bool }.

Definition toEigen (p : PoseArray) : vector_Affine3d := map poseMsgToEigen p.

Definition toEigen_all (ps : list PoseArray) : list vector_Affine3d := map toEigen ps.

Definition toMsg (p : vector_Affine3d) : PoseArray := map poseEigenToMsg p.

Definition toEndPoints (segments : list vector_Affine3d) (ref_rotation : Quaterniond)
  : list PathEndPoints :=
  let ref_inv := affine (toRotationMatrix (quat_inverse ref_rotation)) (vec3 0 0 0) in
  map (fun i =>
         let s := nth i segments [] in
         let a := translation (affine_mul ref_inv (front s)) in
         let b := translation (affine_mul ref_inv (back s)) in
         end_points_of a b i)
      (seq 0 (length segments)).

Definition reversePathAndPoses (path : PoseArray) : PoseArray :=
  map (fun msg =>
         let eig := poseMsgToEigen msg in
         let eig := affine_mul eig (affine (AngleAxis_UnitZ M_PI) (vec3 0 0 0)) in
         poseEigenToMsg eig)
      (rev path).

Definition PathEndPoints_unread : PathEndPoints := end_points_of (vec3 0 0 0) (vec3 0 0 0) 0.

Definition makeSequence (inp : list PoseArray) (seqs : list SequencePoint)
           (end_points : list PathEndPoints) : list PoseArray :=
  map (fun sq =>
         let rs_back := nth (ep_id (nth (sp_id sq) end_points PathEndPoints_unread)) inp [] in
         if negb (sp_from_a sq) then reversePathAndPoses rs_back else rs_back)
      seqs.

(** ** Quaternion averaging *)

Record Vector4d : Type := vec4 { c0 : R; c1 : R; c2 : R; c3 : R }.

(** A 4x4 matrix by its columns. *)
Record Matrix4d : Type := mat4 { col0 : Vector4d; col1 : Vector4d; col2 : Vector4d; col3 : Vector4d }.

Definition coeff4 (v : Vector4d) (i : nat) : R :=
  match i with
  | 0%nat => c0 v
  | 1%nat => c1 v
  | 2%nat => c2 v
  | _ => c3 v
  end.

Definition col4 (m : Matrix4d) (j : nat) : Vector4d :=
  match j with
  | 0%nat => col0 m
  | 1%nat => col1 m
  | 2%nat => col2 m
  | _ => col3 m
  end.

(** [m(i, j)]. *)
Definition coeff44 (m : Matrix4d) (i j : nat) : R := coeff4 (col4 m j) i.

(** [q.coeffs()]. *)
Definition coeffs (q : Quaterniond) : Vector4d := vec4 (q_x q) (q_y q) (q_z q) (q_w q).

(** [Q * Q.transpose()] for the 4xN matrix whose columns are [Q]. *)
Definition mul_transpose (Q : list Vector4d) : Matrix4d :=
  let entry i j := fold_right (fun q acc => coeff4 q i * coeff4 q j + acc) 0 Q in
  let column j := vec4 (entry 0%nat j) (entry 1%nat j) (entry 2%nat j) (entry 3%nat j) in
  mat4 (column 0%nat) (column 1%nat) (column 2%nat) (column 3%nat).

(** The result of [Eigen::SelfAdjointEigenSolver]: [eigenvalues()] and
    [eigenvectors()] (one eigenvector per column). *)
Definition EigenSolver : Type := Matrix4d -> Vector4d * Matrix4d.

Definition average (eigensolver : EigenSolver) (qs : list Quaterniond) : Quaterniond :=
  let Q := map coeffs qs in
  let Q_prime := mul_transpose Q in
  let eigen_vals := fst (eigensolver Q_prime) in
  let eigen_vecs := snd (eigensolver Q_prime) in
  let max_idx :=
    fst (fold_left
           (fun (st : nat * R) i =>
              if Rgt_dec (coeff4 eigen_vals i) (snd st)
              then (i, coeff4 eigen_vals i)
              else st)
           (seq 0 4) (0%nat, 0)) in
  let coeffs := col4 eigen_vecs max_idx in
  quat_wxyz (coeff4 coeffs 3) (coeff4 coeffs 0) (coeff4 coeffs 1) (coeff4 coeffs 2).

Definition averageQuaternion (eigensolver : EigenSolver) (poses : vector_Affine3d)
  : Quaterniond :=
  average eigensolver (map (fun p => quat_of_matrix (rotation p)) poses).

(** ** Reference segment *)

(** The value [dist] of one loop iteration of [longestSegment]. *)
Definition end_displacement (s : vector_Affine3d) : R :=
  squaredNorm (vsub (translation (front s)) (translation (back s))).

Definition longestSegment (segments : list vector_Affine3d) : nat :=
  fst (fold_left
         (fun (st : nat * R) i =>
            let dist := end_displacement (nth i segments []) in
            if Rgt_dec dist (snd st) then (i, dist) else st)
         (seq 0 (length segments)) (0%nat, 0)).

(** ** Sequencing *)

(** [std::sort] with a comparator. *)
Definition Sorter : Type :=
  (PathEndPoints -> PathEndPoints -> bool) -> list PathEndPoints -> list PathEndPoints.

(** The comparator handed to [std::sort] in [sequence]. *)
Definition end_points_less (lhs rhs : PathEndPoints) : bool :=
  let lhs_value := Rmin (vec_y (ep_a lhs)) (vec_y (ep_b lhs)) in
  let rhs_value := Rmin (vec_y (ep_a rhs)) (vec_y (ep_b rhs)) in
  Rltb lhs_value rhs_value.

(** The lambda [current_position] of [sequence]. *)
Definition current_position (end_points : list PathEndPoints) (p : SequencePoint) : Vector3d :=
  if sp_from_a p
  then ep_b (nth (sp_id p) end_points PathEndPoints_unread)
  else ep_a (nth (sp_id p) end_points PathEndPoints_unread).

(** The loop [for (i = 1; i < end_points.size(); ++i)] of [sequence];
    [iterations] counts the iterations left. *)
Fixpoint sequence_loop (end_points : list PathEndPoints) (i iterations : nat)
         (sequence : list SequencePoint) : list SequencePoint :=
  match iterations with
  | O => sequence
  | S iterations' =>
      let current_pos := current_position end_points (last sequence (sequence_point 0 true)) in
      let dist_a := squaredNorm (vsub (ep_a (nth i end_points PathEndPoints_unread)) current_pos) in
      let dist_b := squaredNorm (vsub (ep_b (nth i end_points PathEndPoints_unread)) current_pos) in
      let from_a := Rltb dist_a dist_b in
      sequence_loop end_points (S i) iterations' (sequence ++ [sequence_point i from_a])
  end.

(** The local vector [sequence] once the loop is over, for sorted
    [end_points]. *)
Definition sequence_points (end_points : list PathEndPoints) : list SequencePoint :=
  sequence_loop end_points 1 (length end_points - 1) [sequence_point 0 true].

(** The local vector [end_points] of [sequence] after the sort. *)
Definition sorted_end_points (std_sort : Sorter) (eigensolver : EigenSolver)
           (input : list PoseArray) : list PathEndPoints :=
  let eigen_poses := toEigen_all input in
  let longest_segment_idx := longestSegment eigen_poses in
  let avg_quaternion := averageQuaternion eigensolver (nth longest_segment_idx eigen_poses []) in
  let end_points := toEndPoints eigen_poses avg_quaternion in
  std_sort end_points_less end_points.

Definition sequence (std_sort : Sorter) (eigensolver : EigenSolver)
           (input : list PoseArray) : list PoseArray :=
  match input with
  | [] => []
  | _ :: _ =>
      let end_points := sorted_end_points std_sort eigensolver input in
      makeSequence input (sequence_points end_points) end_points
  end.

(** ** Margins *)

Definition pointDistance (a b : Affine3d) : R :=
  norm (vsub (translation a) (translation b)).

Definition segmentLength (segment : vector_Affine3d) : R :=
  fold_left (fun length i => length + pointDistance (at_ segment i) (at_ segment (i - 1)))
            (seq 1 (length segment - 1)) 0.

(** The default value of [approxEqual]'s parameter [eps], [1e-3]. *)
Definition approxEqual_eps : R := 1 / 1000.

Definition approxEqual (a b : R) (eps : R) : bool := Rltb (Rabs (a - b)) eps.

(** What a call either returns or throws. *)
Inductive outcome (A : Type) : Type :=
| Returned (value : A)
| Thrown_logic_error (what : string).

Arguments Returned {A} value.
Arguments Thrown_logic_error {A} what.

(** The forward loop of [applyMargins] from index [i] on, [iterations]
    iterations left; the pair is [(forward_index, forward_dist)], which the
    source initialises to [(0, 0.0)]. *)
Fixpoint forward_scan (segment : vector_Affine3d) (i iterations : nat)
         (distance_to_go : R) : nat * R :=
  match iterations with
  | O => (0%nat, 0)
  | S iterations' =>
      let segment_dist := pointDistance (at_ segment i) (at_ segment (i - 1)) in
      if approxEqual segment_dist distance_to_go approxEqual_eps then (i, 0)
      else if Rgt_dec distance_to_go segment_dist
           then forward_scan segment (S i) iterations' (distance_to_go - segment_dist)
           else (i, distance_to_go)
  end.

(** The reverse loop of [applyMargins], entered with loop variable [i];
    the pair is [(reverse_index, reverse_dist)], which the source
    initialises to [(segment.size() - 1, 0.0)]. *)
Fixpoint reverse_scan (segment : vector_Affine3d) (i : nat)
         (distance_to_go : R) : nat * R :=
  match i with
  | O => ((length segment - 1)%nat, 0)
  | S idx =>
      let segment_dist := pointDistance (at_ segment idx) (at_ segment (idx + 1)) in
      if approxEqual segment_dist distance_to_go approxEqual_eps then (idx, 0)
      else if Rgt_dec distance_to_go segment_dist
           then reverse_scan segment idx (distance_to_go - segment_dist)
           else (idx, distance_to_go)
  end.

(** The lambda [interp] of [applyMargins]. *)
Definition interp (start end_ : Affine3d) (dist : R) : Affine3d :=
  affine (rotation start)
         (vadd (translation start)
               (vscale (normalized (vsub (translation end_) (translation start))) dist)).

(** The loop [for (i = forward_index; i <= reverse_index; ++i)]. *)
Definition copy_range (segment : vector_Affine3d) (forward_index reverse_index : nat)
  : vector_Affine3d :=
  map (at_ segment) (seq forward_index (reverse_index + 1 - forward_index)).

(** [applyMargins] on one segment.  The unsigned [segment.size() - 1] is
    only evaluated for a segment with a sample: the first [throw] is
    taken before it otherwise. *)
Definition applyMargins (segment : vector_Affine3d) (offset : R)
  : outcome vector_Affine3d :=
  let length_ := segmentLength segment in
  if Rlt_dec length_ (2 * offset) then Returned segment
  else
    let forward := forward_scan segment 1 (length segment - 1) offset in
    let forward_index := fst forward in
    let forward_dist := snd forward in
    if Nat.eqb forward_index 0
    then Thrown_logic_error "Something went wrong with margins"
    else
      let backward := reverse_scan segment (length segment - 1) offset in
      let reverse_index := fst backward in
      let reverse_dist := snd backward in
      if Nat.eqb reverse_index (length segment - 1)
      then Thrown_logic_error "Something went wrong with margins (reverse)"
      else
        let new_start :=
          interp (at_ segment (forward_index - 1)) (at_ segment forward_index) forward_dist in
        let new_end :=
          interp (at_ segment (reverse_index + 1)) (at_ segment reverse_index) reverse_dist in
        Returned ((if Req_dec_T forward_dist 0 then [] else [new_start])
                    ++ copy_range segment forward_index reverse_index
                    ++ (if Req_dec_T reverse_dist 0 then [] else [new_end])).

(** [applyMargins] on a list of paths (the second overload): each path is
    converted, trimmed and converted back; an exception ends the loop. *)
Definition applyMargins_paths (paths : list PoseArray) (offset : R)
  : outcome (list PoseArray) :=
  fold_left
    (fun (result : outcome (list PoseArray)) (segment : vector_Affine3d) =>
       match result with
       | Thrown_logic_error what => Thrown_logic_error what
       | Returned rs =>
           match applyMargins segment offset with
           | Thrown_logic_error what => Thrown_logic_error what
           | Returned with_margins => Returned (rs ++ [toMsg with_margins])
           end
       end)
    (toEigen_all paths) (Returned []).

(** ** The planner: margins, then sequencing *)

(** The offset handed to [applyMargins] by [generatePath],
    [0.25 * 0.0254]. *)
Definition generatePath_offset : R := (25 / 100) * (254 / 10000).

(** [generatePath] from the paths of the upstream planner on: the value
    left in [path], or the exception that leaves the function. *)
Definition generatePath_paths (std_sort : Sorter) (eigensolver : EigenSolver)
           (paths : list PoseArray) : outcome (list PoseArray) :=
  match applyMargins_paths paths generatePath_offset with
  | Thrown_logic_error what => Thrown_logic_error what
  | Returned paths' => Returned (sequence std_sort eigensolver paths')
  end.

(** ** Tools and parameters *)

(** [tool_path_planner::ProcessTool]. *)
Record ProcessTool : Type := process_tool {
  pt_spacing : R;
  line_spacing : R;
  tool_offset : R;
  intersecting_plane_height : R;
  nearest_neighbors : Z;
  min_hole_size : R }.

(** [NoetherPathPlanner::loadTool]. *)
Definition NoetherPathPlanner_loadTool : ProcessTool :=
  {| pt_spacing := 1 / 100;
     line_spacing := 25 / 1000;
     tool_offset := 0;
     intersecting_plane_height := 5 / 100;
     nearest_neighbors := 5;
     min_hole_size := 1 / 100 |}.

Definition PARAM_BASE : string := "/process_planning_params/".
Definition SCAN_PARAM_BASE : string := "scan_params/".
Definition BLEND_PARAM_BASE : string := "blend_params/".

Definition TOOL_RADIUS_PARAM : string :=
  String.append (String.append PARAM_BASE BLEND_PARAM_BASE) "tool_radius".
Definition TOOL_OVERLAP_PARAM : string :=
  String.append (String.append PARAM_BASE BLEND_PARAM_BASE) "overlap".
Definition DISCRETIZATION_PARAM : string :=
  String.append (String.append PARAM_BASE BLEND_PARAM_BASE) "discretization".
Definition SCAN_OVERLAP_PARAM : string :=
  String.append (String.append PARAM_BASE SCAN_PARAM_BASE) "overlap".
Definition SCAN_WIDTH_PARAM : string :=
  String.append (String.append PARAM_BASE SCAN_PARAM_BASE) "scan_width".

(** The parameter server as [ros::NodeHandle::getParam] shows it for a
    [double]: the value under a key, if there is one. *)
Definition NodeHandle : Type := string -> option R.

(** [loadOrWarn]: the value under [key], or [value] as it was (the error
    message is left out). *)
Definition loadOrWarn (nh : NodeHandle) (key : string) (value : R) : R :=
  match nh key with
  | Some loaded => loaded
  | None => value
  end.

(** [NoetherBlendPathPlanner::loadTool]. *)
Definition NoetherBlendPathPlanner_loadTool (nh : NodeHandle) : ProcessTool :=
  let tool := NoetherPathPlanner_loadTool in
  let tool_radius := loadOrWarn nh TOOL_RADIUS_PARAM (25 / 1000) in
  let tool_overlap := loadOrWarn nh TOOL_OVERLAP_PARAM 0 in
  let line_spacing_ := Rmax (1 / 100) (tool_radius * 2 - tool_overlap) in
  {| pt_spacing := loadOrWarn nh DISCRETIZATION_PARAM (pt_spacing tool);
     line_spacing := line_spacing_;
     tool_offset := tool_offset tool;
     intersecting_plane_height := intersecting_plane_height tool;
     nearest_neighbors := nearest_neighbors tool;
     min_hole_size := min_hole_size tool |}.

(** [NoetherScanPathPlanner::loadTool]. *)
Definition NoetherScanPathPlanner_loadTool (nh : NodeHandle) : ProcessTool :=
  let tool := NoetherPathPlanner_loadTool in
  let scan_width := loadOrWarn nh SCAN_WIDTH_PARAM (25 / 1000) in
  let scan_overlap := loadOrWarn nh SCAN_OVERLAP_PARAM 0 in
  let line_spacing_ := Rmax (1 / 100) (scan_width - scan_overlap) in
  {| pt_spacing := loadOrWarn nh DISCRETIZATION_PARAM (pt_spacing tool);
     line_spacing := line_spacing_;
     tool_offset := tool_offset tool;
     intersecting_plane_height := intersecting_plane_height tool;
     nearest_neighbors := nearest_neighbors tool;
     min_hole_size := min_hole_size tool |}.

(** ** Vocabulary of the statements

    Quantities and predicates the properties below are stated with. *)

(** Distance between the samples [i - 1] and [i] of a segment. *)
Definition step_dist (segment : vector_Affine3d) (i : nat) : R :=
  pointDistance (at_ segment i) (at_ segment (i - 1)).

(** Arc length from the first sample to sample [k]. *)
Fixpoint arc_to (segment : vector_Affine3d) (k : nat) : R :=
  match k with
  | O => 0
  | S k' => arc_to segment k' + step_dist segment k
  end.

(** The running maximum of [value 0 .. value (n - 1)] from [(0, 0.0)], moved
    by a strictly greater value: the loop shared by [longestSegment] and
    [average]. *)
Definition running_max (value : nat -> R) (n : nat) : nat * R :=
  fold_left (fun (st : nat * R) i => if Rgt_dec (value i) (snd st) then (i, value i) else st)
            (seq 0 n) (0%nat, 0).

(** The decision taken for sorted record [i] when the previous step is
    [prev]. *)
Definition chosen_from_a (end_points : list PathEndPoints) (prev : SequencePoint)
           (i : nat) : bool :=
  let current_pos := current_position end_points prev in
  Rltb (squaredNorm (vsub (ep_a (nth i end_points PathEndPoints_unread)) current_pos))
       (squaredNorm (vsub (ep_b (nth i end_points PathEndPoints_unread)) current_pos)).

(** The value compared by the comparator of [sequence]. *)
Definition lateral_key (e : PathEndPoints) : R := Rmin (vec_y (ep_a e)) (vec_y (ep_b e)).

(** What [std::sort] guarantees about its result: the same elements. *)
Definition sort_permutes (std_sort : Sorter) : Prop :=
  forall l, Permutation (std_sort end_points_less l) l.

(** What [std::sort] guarantees about its result: no element is less than
    an element placed before it. *)
Definition sort_orders (std_sort : Sorter) : Prop :=
  forall l, Sorted (fun lhs rhs => end_points_less rhs lhs = false)
                   (std_sort end_points_less l).

(** The segments read by [makeSequence], in output order, each with the
    flag [from_a] of its step. *)
Definition sequence_order (std_sort : Sorter) (eigensolver : EigenSolver)
           (input : list PoseArray) : list (PoseArray * bool) :=
  let end_points := sorted_end_points std_sort eigensolver input in
  map (fun sq => (nth (ep_id (nth (sp_id sq) end_points PathEndPoints_unread)) input [],
                  sp_from_a sq))
      (sequence_points end_points).

(** Dot product, and product by a scalar, of 4-vectors. *)
Definition dot4 (u v : Vector4d) : R :=
  c0 u * c0 v + c1 u * c1 v + c2 u * c2 v + c3 u * c3 v.

Definition scale4 (k : R) (v : Vector4d) : Vector4d :=
  vec4 (k * c0 v) (k * c1 v) (k * c2 v) (k * c3 v).

(** The product of a matrix and a vector. *)
Definition mat4_vec (m : Matrix4d) (v : Vector4d) : Vector4d :=
  let row i := coeff44 m i 0 * c0 v + coeff44 m i 1 * c1 v
               + coeff44 m i 2 * c2 v + coeff44 m i 3 * c3 v in
  vec4 (row 0%nat) (row 1%nat) (row 2%nat) (row 3%nat).

(** What [SelfAdjointEigenSolver] documents about [eigenvalues()] and
    [eigenvectors()] for the matrix [m]: column [j] is an eigenvector for
    eigenvalue [j], the columns are orthonormal, and
    [m = V * D * V.transpose()]. *)
Definition eigen_decomposition (m : Matrix4d) (res : Vector4d * Matrix4d) : Prop :=
  let vals := fst res in
  let vecs := snd res in
  (forall j, (j < 4)%nat ->
             mat4_vec m (col4 vecs j) = scale4 (coeff4 vals j) (col4 vecs j))
  /\ (forall j k, (j < 4)%nat -> (k < 4)%nat ->
                  dot4 (col4 vecs j) (col4 vecs k) = if Nat.eqb j k then 1 else 0)
  /\ (forall r c, (r < 4)%nat -> (c < 4)%nat ->
                  coeff44 m r c
                  = coeff4 vals 0 * coeff44 vecs r 0 * coeff44 vecs c 0
                    + coeff4 vals 1 * coeff44 vecs r 1 * coeff44 vecs c 1
                    + coeff4 vals 2 * coeff44 vecs r 2 * coeff44 vecs c 2
                    + coeff4 vals 3 * coeff44 vecs r 3 * coeff44 vecs c 3).

(** The opposite quaternion: the same rotation. *)
Definition quat_neg (q : Quaterniond) : Quaterniond :=
  quat_xyzw (- q_x q) (- q_y q) (- q_z q) (- q_w q).

(** The poses of a path all have a unit quaternion as orientation. *)
Definition unit_orientations (path : PoseArray) : Prop :=
  Forall (fun m => quat_squaredNorm (orientation m) = 1) path.

(** The half turn about z as a matrix, and a transform turned by it about
    its own z axis: the x and y axes change sign. *)
Definition half_turn_z : Matrix3d := mat3 (-1) 0 0 0 (-1) 0 0 0 1.

Definition turned_about_z (e : Affine3d) : Affine3d :=
  affine (mat_mul (linear e) half_turn_z) (translation e).

(** A quaternion times the half turn about z. *)
Definition quat_turn_z (q : Quaterniond) : Quaterniond :=
  quat_xyzw (q_y q) (- q_x q) (q_w q) (- q_z q).







(** ** Instances of the two library routines

    One sorting routine and one eigen-solver, used to run the statements
    below on concrete inputs. *)

Fixpoint insert_sorted (less : PathEndPoints -> PathEndPoints -> bool)
         (e : PathEndPoints) (l : list PathEndPoints) : list PathEndPoints :=
  match l with
  | [] => [e]
  | h :: t => if less e h then e :: h :: t else h :: insert_sorted less e t
  end.

Definition insertion_sort : Sorter :=
  fun less l => fold_right (insert_sorted less) [] l.

Definition Matrix4d_Identity : Matrix4d :=
  mat4 (vec4 1 0 0 0) (vec4 0 1 0 0) (vec4 0 0 1 0) (vec4 0 0 0 1).

(** Exact on diagonal matrices: the diagonal, and the canonical basis. *)
Definition diagonal_solver : EigenSolver :=
  fun m => (vec4 (coeff44 m 0 0) (coeff44 m 1 1) (coeff44 m 2 2) (coeff44 m 3 3),
            Matrix4d_Identity).

(** The identity rotation, [w = 1]. *)
Definition Quaterniond_Identity : Quaterniond := quat_wxyz 1 0 0 0.

(** The straight two-point segment from [(0, y, 0)] to [(1, y, 0)]. *)
Definition straight_segment (y : R) : PoseArray :=
  [pose_msg (vec3 0 y 0) Quaterniond_Identity; pose_msg (vec3 1 y 0) Quaterniond_Identity].

Definition seg0 : PoseArray := straight_segment 0.
Definition seg1 : PoseArray := straight_segment 1.
Definition seg2 : PoseArray := straight_segment 2.

(** A sample on the x axis, with the identity as rotation. *)
Definition on_x_axis (t : R) : Affine3d := affine Matrix3d_Identity (vec3 t 0 0).

(** The sorted records of the scenario. *)
Definition lane (y : R) (i : nat) : PathEndPoints :=
  end_points_of (vec3 0 y 0) (vec3 1 y 0) i.

(** Three samples spaced by [1.0009]. *)
Definition near_unit_steps : vector_Affine3d :=
  [on_x_axis 0; on_x_axis (10009 / 10000); on_x_axis (20018 / 10000)].

(** Four samples spaced by [1]. *)
Definition unit_steps : vector_Affine3d :=
  [on_x_axis 0; on_x_axis 1; on_x_axis 2; on_x_axis 3].

(** The parameter server with no key at all. *)
Definition no_parameters : NodeHandle := fun _ => None.

(** * Properties *)

(** ** Distances and arc length *)

Lemma squaredNorm_nonneg (p : Vector3d) : 0 <= squaredNorm p.
Proof. unfold squaredNorm. nra. Qed.

Lemma norm_nonneg (p : Vector3d) : 0 <= norm p.
Proof. apply sqrt_pos. Qed.

Lemma pointDistance_nonneg (a b : Affine3d) : 0 <= pointDistance a b.
Proof. apply norm_nonneg. Qed.

Lemma pointDistance_sym (a b : Affine3d) : pointDistance a b = pointDistance b a.
Proof.
  unfold pointDistance, norm, squaredNorm, vsub; simpl.
  f_equal. ring.
Qed.

Lemma step_dist_nonneg segment i : 0 <= step_dist segment i.
Proof. apply pointDistance_nonneg. Qed.

Lemma arc_to_nonneg segment k : 0 <= arc_to segment k.
Proof.
  induction k as [|k IH]; simpl; [lra|].
  pose proof (step_dist_nonneg segment (S k)). lra.
Qed.

Lemma arc_to_mono segment j k : (j <= k)%nat -> arc_to segment j <= arc_to segment k.
Proof.
  induction 1 as [|k Hle IH]; [lra|].
  simpl. pose proof (step_dist_nonneg segment (S k)). lra.
Qed.

Lemma fold_left_arc segment k acc :
  fold_left (fun length i => length + pointDistance (at_ segment i) (at_ segment (i - 1)))
            (seq 1 k) acc
  = acc + arc_to segment k.
Proof.
  revert acc. induction k as [|k IH]; intros acc.
  - simpl. lra.
  - rewrite seq_S, fold_left_app, IH.
    change (acc + arc_to segment k + step_dist segment (1 + k)
            = acc + (arc_to segment k + step_dist segment (S k))).
    simpl. lra.
Qed.

Lemma segmentLength_arc segment :
  segmentLength segment = arc_to segment (length segment - 1).
Proof. unfold segmentLength. rewrite fold_left_arc. lra. Qed.

Lemma segmentLength_nonneg segment : 0 <= segmentLength segment.
Proof. rewrite segmentLength_arc. apply arc_to_nonneg. Qed.

Lemma norm_on_x (t : R) : norm (vec3 t 0 0) = Rabs t.
Proof.
  unfold norm, squaredNorm; simpl.
  replace (t * t + 0 * 0 + 0 * 0) with (Rsqr t) by (unfold Rsqr; ring).
  apply sqrt_Rsqr_abs.
Qed.

Lemma pointDistance_on_x (s t : R) :
  pointDistance (on_x_axis s) (on_x_axis t) = Rabs (s - t).
Proof.
  unfold pointDistance, on_x_axis, vsub; simpl.
  replace (0 - 0) with 0 by ring. apply norm_on_x.
Qed.

(** Evaluation of arc lengths of polylines lying on the x axis. *)
Ltac arc_on_x :=
  repeat rewrite segmentLength_arc;
  cbn [length Nat.sub arc_to];
  unfold step_dist, at_; cbn [nth Nat.sub];
  repeat rewrite pointDistance_on_x.

Ltac solve_abs :=
  unfold Rabs in *; repeat (destruct (Rcase_abs _)); lra.

Lemma approxEqual_true a b :
  approxEqual a b approxEqual_eps = true -> Rabs (a - b) < approxEqual_eps.
Proof. unfold approxEqual, Rltb. destruct (Rlt_dec _ _); [auto|discriminate]. Qed.

Lemma approxEqual_false a b :
  approxEqual a b approxEqual_eps = false -> approxEqual_eps <= Rabs (a - b).
Proof. unfold approxEqual, Rltb. destruct (Rlt_dec _ _); [discriminate|lra]. Qed.

(** ** Margins: the short segment *)

(** C3.  A segment whose arc length is below twice the offset is returned as
    it is: no trimming and no exception. *)
Theorem applyMargins_short_is_identity (segment : vector_Affine3d) (offset : R) :
  segmentLength segment < 2 * offset ->
  applyMargins segment offset = Returned segment.
Proof.
  intros Hshort. unfold applyMargins.
  destruct (Rlt_dec (segmentLength segment) (2 * offset)) as [_|Hn]; [reflexivity|].
  contradiction.
Qed.

Lemma applyMargins_short_is_identity_witness :
  segmentLength [on_x_axis 0; on_x_axis 1] < 2 * 1
  /\ applyMargins [on_x_axis 0; on_x_axis 1] 1 = Returned [on_x_axis 0; on_x_axis 1].
Proof.
  assert (H : segmentLength [on_x_axis 0; on_x_axis 1] < 2 * 1).
  { arc_on_x. solve_abs. }
  split; [exact H|].
  apply (applyMargins_short_is_identity [on_x_axis 0; on_x_axis 1] 1 H).
Defined.

(** ** Margins: a single pose and a zero offset *)

Lemma segmentLength_single (p : Affine3d) : segmentLength [p] = 0.
Proof. reflexivity. Qed.

(** With one pose and offset [0] the length [0] is not below [2 * 0]: the
    identity branch is skipped, the forward loop has no iteration and the
    first [throw] is taken. *)
Lemma applyMargins_single_pose_throws (p : Affine3d) :
  applyMargins [p] 0 = Thrown_logic_error "Something went wrong with margins".
Proof.
  unfold applyMargins. rewrite segmentLength_single.
  destruct (Rlt_dec 0 (2 * 0)) as [H|_]; [lra|]. reflexivity.
Qed.

(** With a positive offset a single pose is returned as it is. *)
Lemma applyMargins_single_pose_positive_offset (p : Affine3d) (offset : R) :
  0 < offset -> applyMargins [p] offset = Returned [p].
Proof.
  intros Hpos. unfold applyMargins. rewrite segmentLength_single.
  destruct (Rlt_dec 0 (2 * offset)) as [_|Hn]; [reflexivity|lra].
Qed.

(** C4, as stated, fails at offset [0]: the pose at the origin alone, with
    the non-negative offset [0], is not returned; [applyMargins] throws. *)
Lemma applyMargins_single_pose_offset_zero :
  0 <= 0
  /\ applyMargins [on_x_axis 0] 0
     = Thrown_logic_error "Something went wrong with margins"
  /\ applyMargins [on_x_axis 0] 0 <> Returned [on_x_axis 0].
Proof.
  split; [lra|].
  rewrite (applyMargins_single_pose_throws (on_x_axis 0)).
  split; [reflexivity|discriminate].
Qed.

(** C4, amended.  For one pose and every positive offset, the length is
    [0], below twice the offset, and [applyMargins] returns the segment
    unchanged through its identity branch; nothing is thrown. *)
Theorem applyMargins_single_pose_identity (p : Affine3d) (offset : R) :
  0 < offset ->
  segmentLength [p] = 0
  /\ segmentLength [p] < 2 * offset
  /\ applyMargins [p] offset = Returned [p].
Proof.
  intros Hpos. split; [apply segmentLength_single|].
  split; [rewrite segmentLength_single; lra|].
  apply applyMargins_single_pose_positive_offset. exact Hpos.
Qed.

Lemma applyMargins_single_pose_identity_witness :
  segmentLength [on_x_axis 0] = 0
  /\ segmentLength [on_x_axis 0] < 2 * generatePath_offset
  /\ applyMargins [on_x_axis 0] generatePath_offset = Returned [on_x_axis 0].
Proof.
  apply (applyMargins_single_pose_identity (on_x_axis 0) generatePath_offset).
  unfold generatePath_offset. lra.
Defined.

(** C5, as stated, fails at offset [0] on one pose: [L = 0 >= 2 * 0], the
    forward scan has no iteration and ends with [forward_index = 0], and
    the exception is thrown. *)
Lemma applyMargins_scan_finds_no_cut :
  0 <= 0
  /\ segmentLength [on_x_axis 0] >= 2 * 0
  /\ forward_scan [on_x_axis 0] 1 (length [on_x_axis 0] - 1) 0 = (0%nat, 0)
  /\ exists what, applyMargins [on_x_axis 0] 0 = Thrown_logic_error what.
Proof.
  split; [lra|]. split; [rewrite segmentLength_single; lra|].
  split; [reflexivity|].
  eexists. apply applyMargins_single_pose_throws.
Qed.

(** ** Margins: offset zero *)

Lemma map_nth_seq {A : Type} (d : A) (l : list A) :
  forall a k, (a + k <= length l)%nat ->
              map (fun i => nth i l d) (seq a k) = firstn k (skipn a l).
Proof.
  induction l as [|h t IH]; intros a k Hle; simpl in Hle.
  - assert (a = 0%nat) by lia. assert (k = 0%nat) by lia. subst. reflexivity.
  - destruct a as [|a].
    + destruct k as [|k]; [reflexivity|].
      simpl. f_equal.
      rewrite <- seq_shift, map_map. simpl.
      rewrite (IH 0%nat k) by lia. reflexivity.
    + rewrite <- seq_shift, map_map. simpl.
      apply IH. lia.
Qed.

Lemma copy_range_sublist segment fi ri :
  (fi <= ri + 1)%nat -> (ri < length segment)%nat ->
  copy_range segment fi ri = firstn (ri + 1 - fi) (skipn fi segment).
Proof.
  intros H1 H2. unfold copy_range, at_.
  apply map_nth_seq. lia.
Qed.

Lemma forward_scan_offset_zero segment m :
  forward_scan segment 1 (S m) 0 = (1%nat, 0).
Proof.
  simpl.
  destruct (approxEqual _ 0 approxEqual_eps); [reflexivity|].
  destruct (Rgt_dec 0 _) as [Hgt|_]; [|reflexivity].
  pose proof (pointDistance_nonneg (at_ segment 1) (at_ segment 0)). lra.
Qed.

Lemma reverse_scan_offset_zero segment m :
  reverse_scan segment (S m) 0 = (m, 0).
Proof.
  simpl.
  destruct (approxEqual _ 0 approxEqual_eps); [reflexivity|].
  destruct (Rgt_dec 0 _) as [Hgt|_]; [|reflexivity].
  pose proof (pointDistance_nonneg (at_ segment m) (at_ segment (m + 1))). lra.
Qed.

Lemma applyMargins_offset_zero (segment : vector_Affine3d) :
  (2 <= length segment)%nat ->
  applyMargins segment 0 = Returned (firstn (length segment - 2) (skipn 1 segment)).
Proof.
  intros Hn.
  destruct (length segment) as [|[|m]] eqn:Hlen; [lia|lia|].
  replace (S (S m) - 2)%nat with m by lia.
  unfold applyMargins.
  destruct (Rlt_dec (segmentLength segment) (2 * 0)) as [Hlt|_].
  { pose proof (segmentLength_nonneg segment). lra. }
  rewrite Hlen. replace (S (S m) - 1)%nat with (S m) by lia.
  rewrite forward_scan_offset_zero, reverse_scan_offset_zero. cbn [fst snd Nat.eqb].
  replace (Nat.eqb m (S m)) with false by (symmetry; apply Nat.eqb_neq; lia).
  destruct (Req_dec_T 0 0) as [_|Hne]; [|exfalso; apply Hne; reflexivity].
  rewrite copy_range_sublist by lia.
  rewrite app_nil_r. simpl app.
  replace (m + 1 - 1)%nat with m by lia. reflexivity.
Qed.

(** C10.  With offset [0] and at least two samples, the forward scan stops
    at index 1 and the reverse scan at index [n - 2], both with distance 0,
    and the samples [1 .. n - 2] are returned: the first and the last
    sample are dropped, so the result is not the input. *)
Theorem applyMargins_offset_zero_drops_ends (segment : vector_Affine3d) :
  (2 <= length segment)%nat ->
  forward_scan segment 1 (length segment - 1) 0 = (1%nat, 0)
  /\ reverse_scan segment (length segment - 1) 0 = ((length segment - 2)%nat, 0)
  /\ applyMargins segment 0
     = Returned (map (at_ segment) (seq 1 (length segment - 2)))
  /\ applyMargins segment 0
     = Returned (firstn (length segment - 2) (skipn 1 segment))
  /\ applyMargins segment 0 <> Returned segment.
Proof.
  intros Hn.
  pose proof (applyMargins_offset_zero segment Hn) as Happ.
  destruct (length segment) as [|[|m]] eqn:Hlen; [lia|lia|].
  replace (S (S m) - 1)%nat with (S m) by lia.
  replace (S (S m) - 2)%nat with m in * by lia.
  split; [apply forward_scan_offset_zero|].
  split; [apply reverse_scan_offset_zero|].
  split; [|split; [exact Happ|]].
  - rewrite Happ. f_equal. symmetry. apply map_nth_seq. lia.
  - rewrite Happ. intros Heq. injection Heq as Heq.
    apply (f_equal (@length Affine3d)) in Heq.
    rewrite Hlen in Heq.
    pose proof (firstn_le_length m (skipn 1 segment)) as Hle.
    change (skipn 1 segment) with (match segment with [] => [] | _ :: l => l end) in Hle.
    lia.
Qed.

Lemma applyMargins_offset_zero_drops_ends_witness :
  applyMargins [on_x_axis 0; on_x_axis 1; on_x_axis 2; on_x_axis 3] 0
  = Returned [on_x_axis 1; on_x_axis 2].
Proof.
  pose proof (applyMargins_offset_zero_drops_ends
                [on_x_axis 0; on_x_axis 1; on_x_axis 2; on_x_axis 3]) as H.
  simpl length in H.
  destruct (H ltac:(lia)) as (_ & _ & _ & Happ & _).
  exact Happ.
Defined.

(** ** Running maximum

    [longestSegment] and [average] share one loop: a running maximum that
    starts at [(0, 0.0)] and moves on a strictly greater value. *)

Lemma running_max_invariant (value : nat -> R) (n : nat) :
  let k := fst (running_max value n) in
  let m := snd (running_max value n) in
  (forall j, (j < n)%nat -> value j <= m)
  /\ (forall j, (j < k)%nat -> value j < m)
  /\ ((k = 0%nat /\ m = 0) \/ ((k < n)%nat /\ m = value k)).
Proof.
  induction n as [|n IH]; cbv zeta.
  - simpl. repeat split; try (intros; lia). left; auto.
  - unfold running_max in *. rewrite seq_S, fold_left_app. simpl fold_left at 1.
    cbv zeta in IH. simpl Nat.add.
    destruct (fold_left _ (seq 0 n) (0%nat, 0)) as [k m] eqn:Hst.
    simpl fst in *; simpl snd in *.
    destruct IH as (Hall & Hbefore & Hk).
    destruct (Rgt_dec (value n) m) as [Hgt|Hle]; simpl fst; simpl snd.
    + repeat split.
      * intros j Hj. destruct (Nat.eq_dec j n) as [->|Hne]; [lra|].
        specialize (Hall j ltac:(lia)). lra.
      * intros j Hj. specialize (Hall j Hj). lra.
      * right. split; [lia|reflexivity].
    + repeat split.
      * intros j Hj. destruct (Nat.eq_dec j n) as [->|Hne]; [lra|].
        apply Hall. lia.
      * exact Hbefore.
      * destruct Hk as [Hk|[Hk Hm]]; [left; exact Hk|right; split; [lia|exact Hm]].
Qed.

(** ** Reference segment *)

Lemma end_displacement_nonneg s : 0 <= end_displacement s.
Proof. apply squaredNorm_nonneg. Qed.

Lemma longestSegment_running_max segments :
  longestSegment segments
  = fst (running_max (fun i => end_displacement (nth i segments [])) (length segments)).
Proof. reflexivity. Qed.

(** C8.  For a non-empty list of non-empty segments, [longestSegment]
    returns an index of the list whose segment has the largest squared
    distance between first and last position, and every segment before it
    has a strictly smaller one: among equal largest values the lowest index
    is returned. *)
Theorem longestSegment_first_largest (segments : list vector_Affine3d) :
  segments <> [] ->
  Forall (fun s => s <> []) segments ->
  let dist i :=
    squaredNorm (vsub (translation (front (nth i segments [])))
                      (translation (back (nth i segments [])))) in
  let k := longestSegment segments in
  (k < length segments)%nat
  /\ (forall j, (j < length segments)%nat -> dist j <= dist k)
  /\ (forall j, (j < k)%nat -> dist j < dist k).
Proof.
  intros Hne _ dist k.
  assert (Hn : (0 < length segments)%nat).
  { destruct segments; [contradiction|simpl; lia]. }
  pose proof (running_max_invariant
                (fun i => end_displacement (nth i segments [])) (length segments)) as H.
  cbv zeta in H. rewrite <- longestSegment_running_max in H.
  fold k in H.
  change (fun i => end_displacement (nth i segments [])) with dist in H.
  destruct H as (Hall & Hbefore & Hk).
  assert (Hm : snd (running_max dist (length segments)) = dist k /\ (k < length segments)%nat).
  { destruct Hk as [[Hk0 Hm0]|[Hlt Hm]]; [|auto].
    rewrite Hk0, Hm0. split; [|lia].
    pose proof (Hall 0%nat Hn) as H0. rewrite Hm0 in H0.
    pose proof (end_displacement_nonneg (nth 0 segments [])) as H1.
    change (end_displacement (nth 0 segments [])) with (dist 0%nat) in H0, H1. lra. }
  destruct Hm as [Hm Hlt]. rewrite Hm in *.
  split; [exact Hlt|split].
  - intros j Hj. exact (Hall j Hj).
  - intros j Hj. exact (Hbefore j Hj).
Qed.

Lemma longestSegment_first_largest_witness :
  (longestSegment [[on_x_axis 0; on_x_axis 1]; [on_x_axis 0; on_x_axis 2];
                   [on_x_axis 5; on_x_axis 3]] < 3)%nat.
Proof.
  pose proof (longestSegment_first_largest
                [[on_x_axis 0; on_x_axis 1]; [on_x_axis 0; on_x_axis 2];
                 [on_x_axis 5; on_x_axis 3]]) as H.
  destruct H as (Hlt & _).
  - discriminate.
  - repeat constructor; discriminate.
  - exact Hlt.
Defined.

(** ** The sequencing loop *)

Lemma last_is_nth {A : Type} (l : list A) (d : A) :
  last l d = nth (length l - 1) l d.
Proof.
  induction l as [|h [|h' t] IH]; try reflexivity.
  change (last (h :: h' :: t) d) with (last (h' :: t) d).
  rewrite IH. simpl. rewrite Nat.sub_0_r. reflexivity.
Qed.

Lemma sequence_loop_spec (end_points : list PathEndPoints) (d : SequencePoint) :
  forall iterations i sq,
    length sq = i -> (1 <= i)%nat ->
    let result := sequence_loop end_points i iterations sq in
    length result = (i + iterations)%nat
    /\ (forall j, (j < i)%nat -> nth j result d = nth j sq d)
    /\ (forall j, (i <= j < i + iterations)%nat ->
                  nth j result d
                  = sequence_point j (chosen_from_a end_points (nth (j - 1) result d) j)).
Proof.
  induction iterations as [|n IH]; intros i sq Hlen Hi; cbv zeta.
  - simpl. split; [lia|split].
    + intros; reflexivity.
    + intros j Hj. lia.
  - simpl sequence_loop.
    set (from_a := Rltb _ _).
    set (sq' := sq ++ [sequence_point i from_a]).
    assert (Hlen' : length sq' = S i).
    { unfold sq'. rewrite length_app. simpl. lia. }
    destruct (IH (S i) sq' Hlen' ltac:(lia)) as (Hl & Hpre & Hpost).
    assert (Hfrom : from_a = chosen_from_a end_points (nth (i - 1) sq d) i).
    { unfold from_a, chosen_from_a. rewrite last_is_nth, Hlen.
      rewrite (nth_indep sq (sequence_point 0 true) d) by lia. reflexivity. }
    repeat split.
    + rewrite Hl. lia.
    + intros j Hj. rewrite Hpre by lia. unfold sq'. apply app_nth1. lia.
    + intros j Hj. destruct (Nat.eq_dec j i) as [->|Hne].
      * rewrite (Hpre i) by lia. rewrite (Hpre (i - 1)%nat) by lia.
        unfold sq'. rewrite app_nth2 by lia.
        rewrite (app_nth1 sq) by lia.
        rewrite Hlen, Nat.sub_diag. simpl. rewrite Hfrom. reflexivity.
      * apply Hpost. lia.
Qed.

Lemma sequence_points_spec (end_points : list PathEndPoints) (d : SequencePoint) :
  (1 <= length end_points)%nat ->
  let steps := sequence_points end_points in
  length steps = length end_points
  /\ nth 0 steps d = sequence_point 0 true
  /\ (forall j, (1 <= j < length end_points)%nat ->
                nth j steps d
                = sequence_point j (chosen_from_a end_points (nth (j - 1) steps d) j)).
Proof.
  intros Hn. cbv zeta. unfold sequence_points.
  destruct (sequence_loop_spec end_points d (length end_points - 1) 1
                               [sequence_point 0 true] eq_refl (le_n 1))
    as (Hl & Hpre & Hpost).
  repeat split.
  - rewrite Hl. lia.
  - rewrite (Hpre 0%nat) by lia. reflexivity.
  - intros j Hj. apply Hpost. lia.
Qed.

Lemma sequence_points_ids (end_points : list PathEndPoints) :
  (1 <= length end_points)%nat ->
  map sp_id (sequence_points end_points) = seq 0 (length end_points).
Proof.
  intros Hn.
  destruct (sequence_points_spec end_points (sequence_point 0 true) Hn) as (Hl & H0 & Hj).
  apply (nth_ext _ _ 0%nat 0%nat).
  - rewrite length_map, length_seq. exact Hl.
  - intros j Hlt. rewrite length_map, Hl in Hlt.
    rewrite seq_nth by lia. simpl.
    change 0%nat with (sp_id (sequence_point 0 true)) at 1.
    rewrite map_nth.
    destruct (Nat.eq_dec j 0) as [->|Hne].
    + rewrite H0. reflexivity.
    + rewrite Hj by lia. reflexivity.
Qed.

(** C6.  In [sequence], for a non-empty input of non-empty segments: the
    first step is [{0, true}], the first sorted record entered at A; and the
    step of every later sorted record [i] is [{i, dist_a < dist_b}], the two
    squared distances being taken from the current position, which is the B
    end point of the previous step's record when that step started at A and
    its A end point otherwise.  With equal distances the flag is false. *)
Theorem sequence_steps_rule (std_sort : Sorter) (eigensolver : EigenSolver)
        (input : list PoseArray) :
  input <> [] ->
  Forall (fun s => s <> []) input ->
  let end_points := sorted_end_points std_sort eigensolver input in
  let steps := sequence_points end_points in
  let record i := nth i end_points PathEndPoints_unread in
  let step i := nth i steps (sequence_point 0 true) in
  sequence std_sort eigensolver input = makeSequence input steps end_points
  /\ step 0%nat = sequence_point 0 true
  /\ forall i, (1 <= i < length end_points)%nat ->
       let current :=
         if sp_from_a (step (i - 1)%nat)
         then ep_b (record (sp_id (step (i - 1)%nat)))
         else ep_a (record (sp_id (step (i - 1)%nat))) in
       let dist_a := squaredNorm (vsub (ep_a (record i)) current) in
       let dist_b := squaredNorm (vsub (ep_b (record i)) current) in
       step i = sequence_point i (Rltb dist_a dist_b)
       /\ (sp_from_a (step i) = true <-> dist_a < dist_b)
       /\ (dist_a = dist_b -> sp_from_a (step i) = false).
Proof.
  intros Hne _ end_points steps record step.
  split; [|split].
  - destruct input; [contradiction|reflexivity].
  - unfold step, steps, sequence_points.
    destruct (sequence_loop_spec end_points (sequence_point 0 true)
                (length end_points - 1) 1 [sequence_point 0 true] eq_refl (le_n 1))
      as (_ & Hpre & _).
    rewrite (Hpre 0%nat) by lia. reflexivity.
  - intros i Hi current dist_a dist_b.
    destruct (sequence_points_spec end_points (sequence_point 0 true) ltac:(lia))
      as (_ & _ & Hj).
    specialize (Hj i Hi).
    assert (Hstep : step i = sequence_point i (Rltb dist_a dist_b)) by exact Hj.
    split; [exact Hstep|]. rewrite Hstep. simpl. unfold Rltb.
    destruct (Rlt_dec dist_a dist_b) as [Hlt|Hge]; split.
    + split; auto.
    + intros Heq. lra.
    + split; [discriminate|contradiction].
    + reflexivity.
Qed.

Lemma sequence_steps_rule_witness :
  nth 0 (sequence_points (sorted_end_points insertion_sort diagonal_solver [seg0; seg1; seg2]))
      (sequence_point 0 true)
  = sequence_point 0 true.
Proof.
  pose proof (sequence_steps_rule insertion_sort diagonal_solver [seg0; seg1; seg2]) as H.
  destruct H as (_ & H0 & _).
  - discriminate.
  - repeat constructor; discriminate.
  - exact H0.
Defined.

(** ** Sequencing is a reordering *)

Lemma insert_sorted_perm less e l : Permutation (insert_sorted less e l) (e :: l).
Proof.
  induction l as [|h t IH]; simpl; [apply Permutation_refl|].
  destruct (less e h); [apply Permutation_refl|].
  eapply Permutation_trans; [apply perm_skip, IH|apply perm_swap].
Qed.

Lemma insertion_sort_permutes : sort_permutes insertion_sort.
Proof.
  intros l. unfold insertion_sort.
  induction l as [|h t IH]; simpl; [apply Permutation_refl|].
  eapply Permutation_trans; [apply insert_sorted_perm|apply perm_skip, IH].
Qed.

Lemma position_reversePathAndPoses (path : PoseArray) :
  map position (reversePathAndPoses path) = rev (map position path).
Proof.
  unfold reversePathAndPoses. rewrite map_map, <- map_rev.
  apply map_ext. intros m.
  unfold poseEigenToMsg, affine_mul, poseMsgToEigen, vadd, mat_vec; simpl.
  destruct (position m) as [px py pz]; simpl.
  f_equal; ring.
Qed.

Lemma length_reversePathAndPoses (path : PoseArray) :
  length (reversePathAndPoses path) = length path.
Proof. unfold reversePathAndPoses. rewrite length_map, length_rev. reflexivity. Qed.

Lemma map_nth_all {A : Type} (d : A) (l : list A) :
  map (fun i => nth i l d) (seq 0 (length l)) = l.
Proof.
  rewrite map_nth_seq by (simpl; lia).
  simpl. apply firstn_all.
Qed.

Lemma toEndPoints_ids segments q :
  map ep_id (toEndPoints segments q) = seq 0 (length segments).
Proof.
  unfold toEndPoints. rewrite map_map. simpl. apply map_id.
Qed.

Section Reordering.

Variable std_sort : Sorter.
Variable eigensolver : EigenSolver.
Hypothesis sort_keeps_elements : sort_permutes std_sort.

Lemma sorted_end_points_perm (input : list PoseArray) :
  Permutation (sorted_end_points std_sort eigensolver input)
              (toEndPoints (toEigen_all input)
                 (averageQuaternion eigensolver
                    (nth (longestSegment (toEigen_all input)) (toEigen_all input) []))).
Proof using sort_keeps_elements. apply sort_keeps_elements. Qed.

Lemma sorted_end_points_length (input : list PoseArray) :
  length (sorted_end_points std_sort eigensolver input) = length input.
Proof using sort_keeps_elements.
  rewrite (Permutation_length (sorted_end_points_perm input)).
  unfold toEndPoints, toEigen_all.
  rewrite length_map, length_seq, length_map. reflexivity.
Qed.

(** The [assert] of [makeSequence] holds in [sequence]. *)
Lemma makeSequence_assertion (input : list PoseArray) :
  input <> [] ->
  length input = length (sequence_points (sorted_end_points std_sort eigensolver input)).
Proof using sort_keeps_elements.
  intros Hne.
  pose proof (sorted_end_points_length input) as Hlen.
  destruct (sequence_points_spec (sorted_end_points std_sort eigensolver input)
                                 (sequence_point 0 true)) as (Hl & _).
  - rewrite Hlen. destruct input; [contradiction|simpl; lia].
  - rewrite Hl. symmetry. exact Hlen.
Qed.

Lemma sequence_order_perm (input : list PoseArray) :
  input <> [] ->
  Permutation (map fst (sequence_order std_sort eigensolver input)) input.
Proof using sort_keeps_elements.
  intros Hne. unfold sequence_order. cbv zeta.
  pose proof (sorted_end_points_perm input) as Hperm.
  pose proof (sorted_end_points_length input) as Hlen.
  set (end_points := sorted_end_points std_sort eigensolver input) in *.
  assert (H1 : (1 <= length end_points)%nat).
  { rewrite Hlen. destruct input; [contradiction|simpl; lia]. }
  rewrite map_map. simpl fst.
  rewrite <- (map_map sp_id
                (fun i : nat =>
                   nth (ep_id (nth i end_points PathEndPoints_unread)) input (@nil Pose))).
  rewrite (sequence_points_ids end_points H1).
  rewrite <- (map_map (fun i : nat => nth i end_points PathEndPoints_unread)
                      (fun ep : PathEndPoints => nth (ep_id ep) input (@nil Pose))).
  rewrite map_nth_all.
  eapply Permutation_trans.
  { apply Permutation_map. exact Hperm. }
  rewrite <- (map_map ep_id (fun i : nat => nth i input (@nil Pose))).
  rewrite toEndPoints_ids. unfold toEigen_all. rewrite length_map.
  rewrite map_nth_all. apply Permutation_refl.
Qed.

(** C1.  For every non-empty list of non-empty segments, the result of
    [sequence] has the length of the input and lists the input segments in
    some order, without loss or repetition, each either as it is or passed
    through [reversePathAndPoses]; the positions of an output segment are
    those of the input segment it comes from, in the same or in the
    opposite order, so the position sets of the output are those of the
    input. *)
Theorem sequence_permutation (input : list PoseArray) :
  input <> [] ->
  Forall (fun s => s <> []) input ->
  exists order : list (PoseArray * bool),
    Permutation (map fst order) input
    /\ length (sequence std_sort eigensolver input) = length input
    /\ Forall2 (fun (out : PoseArray) (p : PoseArray * bool) =>
                  out = if snd p then fst p else reversePathAndPoses (fst p))
               (sequence std_sort eigensolver input) order
    /\ Forall2 (fun (out : PoseArray) (p : PoseArray * bool) =>
                  map position out
                  = if snd p then map position (fst p) else rev (map position (fst p)))
               (sequence std_sort eigensolver input) order
    /\ Forall2 (fun (out : PoseArray) (p : PoseArray * bool) =>
                  Permutation (map position out) (map position (fst p)))
               (sequence std_sort eigensolver input) order.
Proof using sort_keeps_elements.
  intros Hne _.
  exists (sequence_order std_sort eigensolver input).
  pose proof (sequence_order_perm input Hne) as Hperm.
  assert (Heq : sequence std_sort eigensolver input
                = map (fun p : PoseArray * bool =>
                         if snd p then fst p else reversePathAndPoses (fst p))
                      (sequence_order std_sort eigensolver input)).
  { destruct input as [|s0 rest]; [contradiction|].
    unfold sequence, sequence_order, makeSequence. cbv zeta.
    rewrite map_map. apply map_ext. intros sq. simpl.
    destruct (sp_from_a sq); reflexivity. }
  split; [exact Hperm|]. split; [|split; [|split]].
  - rewrite Heq, length_map, <- (length_map fst). apply Permutation_length, Hperm.
  - rewrite Heq. clear.
    induction (sequence_order std_sort eigensolver input) as [|p l IH];
      simpl; constructor; auto.
  - rewrite Heq. clear.
    induction (sequence_order std_sort eigensolver input) as [|p l IH];
      simpl; constructor; auto.
    destruct (snd p); [reflexivity|apply position_reversePathAndPoses].
  - rewrite Heq. clear.
    induction (sequence_order std_sort eigensolver input) as [|p l IH];
      simpl; constructor; auto.
    destruct (snd p); [apply Permutation_refl|].
    rewrite position_reversePathAndPoses. apply Permutation_sym, Permutation_rev.
Qed.

End Reordering.

Lemma sequence_permutation_witness :
  length (sequence insertion_sort diagonal_solver [seg0; seg1; seg2]) = 3%nat.
Proof.
  destruct (sequence_permutation insertion_sort diagonal_solver insertion_sort_permutes
                                 [seg0; seg1; seg2])
    as (order & _ & Hlen & _).
  - discriminate.
  - repeat constructor; discriminate.
  - exact Hlen.
Defined.

(** ** Averaging copies of one quaternion *)

Lemma fold_right_repeat_sum (v : Vector4d) (f : Vector4d -> R) (n : nat) :
  fold_right (fun q acc => f q + acc) 0 (repeat v n) = INR n * f v.
Proof.
  induction n as [|n IH].
  - simpl. lra.
  - rewrite S_INR. simpl repeat. simpl fold_right. rewrite IH. lra.
Qed.

Lemma vec4_eq (a b c d a' b' c' d' : R) :
  a = a' -> b = b' -> c = c' -> d = d' -> vec4 a b c d = vec4 a' b' c' d'.
Proof. intros; subst; reflexivity. Qed.

Lemma mul_transpose_repeat (v : Vector4d) (n : nat) :
  mul_transpose (repeat v n)
  = mat4 (scale4 (INR n * c0 v) v) (scale4 (INR n * c1 v) v)
         (scale4 (INR n * c2 v) v) (scale4 (INR n * c3 v) v).
Proof.
  unfold mul_transpose, scale4.
  repeat rewrite (fold_right_repeat_sum v (fun q => coeff4 q _ * coeff4 q _) n).
  simpl. f_equal; apply vec4_eq; ring.
Qed.

Lemma average_max_idx eigensolver qs :
  average eigensolver qs
  = let res := eigensolver (mul_transpose (map coeffs qs)) in
    let v := col4 (snd res) (fst (running_max (coeff4 (fst res)) 4)) in
    quat_xyzw (c0 v) (c1 v) (c2 v) (c3 v).
Proof. reflexivity. Qed.

(** The algebra behind the average: a unit eigenvector of [n * q * q^T] for
    a positive eigenvalue is [q] or [- q]. *)
Lemma unit_eigenvector_of_copies (n x y z w m v0 v1 v2 v3 : R) :
  0 < n -> 0 < m ->
  x * x + y * y + z * z + w * w = 1 ->
  v0 * v0 + v1 * v1 + v2 * v2 + v3 * v3 = 1 ->
  n * x * x * v0 + n * y * x * v1 + n * z * x * v2 + n * w * x * v3 = m * v0 ->
  n * x * y * v0 + n * y * y * v1 + n * z * y * v2 + n * w * y * v3 = m * v1 ->
  n * x * z * v0 + n * y * z * v1 + n * z * z * v2 + n * w * z * v3 = m * v2 ->
  n * x * w * v0 + n * y * w * v1 + n * z * w * v2 + n * w * w * v3 = m * v3 ->
  (v0 = x /\ v1 = y /\ v2 = z /\ v3 = w)
  \/ (v0 = - x /\ v1 = - y /\ v2 = - z /\ v3 = - w).
Proof.
  intros Hpos Hm Hunit Hnorm E0 E1 E2 E3.
  set (c := x * v0 + y * v1 + z * v2 + w * v3).
  assert (F0 : m * v0 = n * c * x) by (rewrite <- E0; unfold c; ring).
  assert (F1 : m * v1 = n * c * y) by (rewrite <- E1; unfold c; ring).
  assert (F2 : m * v2 = n * c * z) by (rewrite <- E2; unfold c; ring).
  assert (F3 : m * v3 = n * c * w) by (rewrite <- E3; unfold c; ring).
  assert (Hlam : m = n * (c * c)).
  { transitivity (m * (v0 * v0 + v1 * v1 + v2 * v2 + v3 * v3)); [rewrite Hnorm; ring|].
    transitivity (v0 * (m * v0) + v1 * (m * v1) + v2 * (m * v2) + v3 * (m * v3)); [ring|].
    rewrite F0, F1, F2, F3. unfold c. ring. }
  assert (Hc : m * c = n * c).
  { transitivity (x * (m * v0) + y * (m * v1) + z * (m * v2) + w * (m * v3));
      [unfold c; ring|].
    rewrite F0, F1, F2, F3.
    transitivity (n * c * (x * x + y * y + z * z + w * w)); [ring|].
    rewrite Hunit. ring. }
  assert (Hc0 : c <> 0).
  { intros H0. rewrite H0 in Hlam. lra. }
  assert (HmN : m = n).
  { apply (Rmult_eq_reg_r c); assumption. }
  assert (Hcc : c * c = 1).
  { apply (Rmult_eq_reg_l n); lra. }
  assert (Hsign : c = 1 \/ c = -1).
  { assert (H : (c - 1) * (c + 1) = 0) by lra.
    apply Rmult_integral in H. destruct H; [left|right]; lra. }
  rewrite HmN in F0, F1, F2, F3.
  assert (G0 : v0 = c * x) by (apply (Rmult_eq_reg_l n); lra).
  assert (G1 : v1 = c * y) by (apply (Rmult_eq_reg_l n); lra).
  assert (G2 : v2 = c * z) by (apply (Rmult_eq_reg_l n); lra).
  assert (G3 : v3 = c * w) by (apply (Rmult_eq_reg_l n); lra).
  destruct Hsign as [Hs|Hs]; [left|right]; rewrite Hs in *; repeat split; lra.
Qed.

(** Copies of a unit quaternion: the selected eigenvector is that
    quaternion or its opposite. *)
Lemma average_of_copies (eigensolver : EigenSolver) (q : Quaterniond) (n : nat) :
  quat_squaredNorm q = 1 ->
  (1 <= n)%nat ->
  eigen_decomposition (mul_transpose (map coeffs (repeat q n)))
                      (eigensolver (mul_transpose (map coeffs (repeat q n)))) ->
  average eigensolver (repeat q n) = q \/ average eigensolver (repeat q n) = quat_neg q.
Proof.
  intros Hunit Hn Hdec.
  rewrite average_max_idx. cbv zeta.
  rewrite map_repeat in *. rewrite mul_transpose_repeat in *.
  destruct (eigensolver _) as [vals vecs].
  destruct Hdec as (Heig & Horth & Hrec). simpl fst in *. simpl snd in *.
  pose proof (running_max_invariant (coeff4 vals) 4) as Hmax. cbv zeta in Hmax.
  set (k := fst (running_max (coeff4 vals) 4)) in *.
  set (m := snd (running_max (coeff4 vals) 4)) in *.
  destruct Hmax as (Hall & _ & Hk).
  assert (Hpos : 0 < INR n) by (apply lt_0_INR; lia).
  destruct q as [x y z w]. unfold quat_squaredNorm in Hunit. simpl in Hunit.
  pose proof (Hall 0%nat ltac:(lia)) as A0. pose proof (Hall 1%nat ltac:(lia)) as A1.
  pose proof (Hall 2%nat ltac:(lia)) as A2. pose proof (Hall 3%nat ltac:(lia)) as A3.
  pose proof (Hrec 0%nat 0%nat ltac:(lia) ltac:(lia)) as R0.
  pose proof (Hrec 1%nat 1%nat ltac:(lia) ltac:(lia)) as R1.
  pose proof (Hrec 2%nat 2%nat ltac:(lia) ltac:(lia)) as R2.
  pose proof (Hrec 3%nat 3%nat ltac:(lia) ltac:(lia)) as R3.
  pose proof (Horth 0%nat 0%nat ltac:(lia) ltac:(lia)) as N0.
  pose proof (Horth 1%nat 1%nat ltac:(lia) ltac:(lia)) as N1.
  pose proof (Horth 2%nat 2%nat ltac:(lia) ltac:(lia)) as N2.
  pose proof (Horth 3%nat 3%nat ltac:(lia) ltac:(lia)) as N3.
  pose proof (Heig 0%nat ltac:(lia)) as E0. pose proof (Heig 1%nat ltac:(lia)) as E1.
  pose proof (Heig 2%nat ltac:(lia)) as E2. pose proof (Heig 3%nat ltac:(lia)) as E3.
  clear Hall Hrec Horth Heig.
  destruct vals as [l0 l1 l2 l3].
  destruct vecs as [[a0 a1 a2 a3] [b0 b1 b2 b3] [d0 d1 d2 d3] [e0 e1 e2 e3]].
  unfold mat4_vec, coeff44, scale4, dot4, coeffs in *.
  cbn [coeff4 col4 c0 c1 c2 c3 col0 col1 col2 col3 Nat.eqb q_x q_y q_z q_w] in *.
  (* the trace, read on both sides of the reconstruction *)
  assert (Htrace : l0 + l1 + l2 + l3 = INR n).
  { transitivity (l0 * (a0 * a0 + a1 * a1 + a2 * a2 + a3 * a3)
                  + l1 * (b0 * b0 + b1 * b1 + b2 * b2 + b3 * b3)
                  + l2 * (d0 * d0 + d1 * d1 + d2 * d2 + d3 * d3)
                  + l3 * (e0 * e0 + e1 * e1 + e2 * e2 + e3 * e3)).
    { rewrite N0, N1, N2, N3. ring. }
    transitivity (INR n * (x * x + y * y + z * z + w * w)); [|rewrite Hunit; ring].
    lra. }
  assert (Hm : 0 < m) by lra.
  destruct Hk as [[_ Hm0]|[Hk4 Hmk]]; [lra|].
  injection E0 as E00 E01 E02 E03. injection E1 as E10 E11 E12 E13.
  injection E2 as E20 E21 E22 E23. injection E3 as E30 E31 E32 E33.
  unfold quat_neg. cbn [q_x q_y q_z q_w].
  destruct k as [|[|[|[|k]]]]; [| | | |lia];
    cbn [coeff4 col4 c0 c1 c2 c3 col0 col1 col2 col3] in *; rewrite <- Hmk in *.
  - destruct (unit_eigenvector_of_copies (INR n) x y z w m a0 a1 a2 a3)
      as [(-> & -> & -> & ->)|(-> & -> & -> & ->)]; auto.
  - destruct (unit_eigenvector_of_copies (INR n) x y z w m b0 b1 b2 b3)
      as [(-> & -> & -> & ->)|(-> & -> & -> & ->)]; auto.
  - destruct (unit_eigenvector_of_copies (INR n) x y z w m d0 d1 d2 d3)
      as [(-> & -> & -> & ->)|(-> & -> & -> & ->)]; auto.
  - destruct (unit_eigenvector_of_copies (INR n) x y z w m e0 e1 e2 e3)
      as [(-> & -> & -> & ->)|(-> & -> & -> & ->)]; auto.
Qed.

Lemma diagonal_solver_on_identity_copies (n : nat) :
  eigen_decomposition
    (mul_transpose (map coeffs (repeat Quaterniond_Identity n)))
    (diagonal_solver (mul_transpose (map coeffs (repeat Quaterniond_Identity n)))).
Proof.
  rewrite map_repeat, mul_transpose_repeat.
  unfold eigen_decomposition, diagonal_solver, mat4_vec, scale4, dot4, coeff44.
  cbv zeta. cbn [fst snd].
  split; [|split].
  - intros j Hj. destruct j as [|[|[|[|j]]]]; [| | | |lia];
      simpl; apply vec4_eq; ring.
  - intros j k Hj Hk.
    destruct j as [|[|[|[|j]]]]; [| | | |lia];
      destruct k as [|[|[|[|k]]]]; try lia; simpl; ring.
  - intros r c Hr Hc.
    destruct r as [|[|[|[|r]]]]; [| | | |lia];
      destruct c as [|[|[|[|c]]]]; try lia; simpl; ring.
Qed.

Lemma Quaterniond_Identity_unit : quat_squaredNorm Quaterniond_Identity = 1.
Proof. unfold quat_squaredNorm; simpl. ring. Qed.

(** C9.  For a unit quaternion [q] and [n >= 1], whenever the eigen-solver
    returns an eigen-decomposition of [Q * Q^T], the average of [n] copies
    of [q] is [q] or [- q]; with [n = 1] this is the average of a
    one-element set. *)
Theorem average_of_identical_rotations (eigensolver : EigenSolver) (q : Quaterniond)
        (n : nat) :
  quat_squaredNorm q = 1 ->
  (1 <= n)%nat ->
  eigen_decomposition (mul_transpose (map coeffs (repeat q n)))
                      (eigensolver (mul_transpose (map coeffs (repeat q n)))) ->
  average eigensolver (repeat q n) = q \/ average eigensolver (repeat q n) = quat_neg q.
Proof. apply average_of_copies. Qed.

Lemma average_of_identical_rotations_witness :
  average diagonal_solver [Quaterniond_Identity; Quaterniond_Identity; Quaterniond_Identity]
  = Quaterniond_Identity
  \/ average diagonal_solver [Quaterniond_Identity; Quaterniond_Identity; Quaterniond_Identity]
     = quat_neg Quaterniond_Identity.
Proof.
  apply (average_of_identical_rotations diagonal_solver Quaterniond_Identity 3).
  - exact Quaterniond_Identity_unit.
  - lia.
  - exact (diagonal_solver_on_identity_copies 3).
Defined.

(** ** The three-lane scenario *)

Lemma end_points_less_true lhs rhs :
  end_points_less lhs rhs = true <-> lateral_key lhs < lateral_key rhs.
Proof.
  unfold end_points_less, Rltb, lateral_key.
  destruct (Rlt_dec _ _); split; intros; auto; try discriminate; contradiction.
Qed.

Lemma end_points_less_false lhs rhs :
  end_points_less lhs rhs = false <-> lateral_key rhs <= lateral_key lhs.
Proof.
  unfold end_points_less, Rltb, lateral_key.
  destruct (Rlt_dec _ _); split; intros; auto; try discriminate; lra.
Qed.

Lemma HdRel_insert_sorted h e l :
  HdRel (fun lhs rhs => end_points_less rhs lhs = false) h l ->
  end_points_less e h = false ->
  HdRel (fun lhs rhs => end_points_less rhs lhs = false) h
        (insert_sorted end_points_less e l).
Proof.
  intros Hhd He. destruct l as [|h' t]; simpl.
  - constructor. exact He.
  - destruct (end_points_less e h'); constructor; [exact He|].
    inversion Hhd; assumption.
Qed.

Lemma insert_sorted_sorted e l :
  Sorted (fun lhs rhs => end_points_less rhs lhs = false) l ->
  Sorted (fun lhs rhs => end_points_less rhs lhs = false)
         (insert_sorted end_points_less e l).
Proof.
  induction 1 as [|h t Hs IH Hhd]; simpl.
  - repeat constructor.
  - destruct (end_points_less e h) eqn:He.
    + constructor; [constructor; assumption|].
      constructor. apply end_points_less_true in He.
      apply end_points_less_false. lra.
    + constructor; [exact IH|].
      apply HdRel_insert_sorted; assumption.
Qed.

Lemma insertion_sort_orders : sort_orders insertion_sort.
Proof.
  intros l. unfold insertion_sort.
  induction l as [|h t IH]; simpl; [constructor|].
  apply insert_sorted_sorted, IH.
Qed.

(** A list whose keys strictly increase is its only sorted permutation. *)
Lemma sorted_permutation_unique (l r : list PathEndPoints) :
  StronglySorted (fun p q => lateral_key p < lateral_key q) l ->
  Permutation r l ->
  Sorted (fun lhs rhs => end_points_less rhs lhs = false) r ->
  r = l.
Proof.
  intros Hl. revert r.
  induction Hl as [|a l' Hl' IH Hall]; intros r Hperm Hr.
  - apply Permutation_nil. apply Permutation_sym. exact Hperm.
  - apply Sorted_StronglySorted in Hr.
    2:{ intros p q s Hpq Hqs. apply end_points_less_false.
        apply end_points_less_false in Hpq, Hqs. lra. }
    destruct r as [|h r'].
    { apply Permutation_nil in Hperm. discriminate. }
    inversion Hr as [|? ? Hr' Hh]; subst.
    assert (Hha : h = a).
    { assert (Hin : In h (a :: l')).
      { eapply Permutation_in; [exact Hperm|left; reflexivity]. }
      destruct Hin as [Heq|Hin]; [auto|exfalso].
      rewrite Forall_forall in Hall. pose proof (Hall h Hin) as Hlt.
      assert (Hina : In a (h :: r')).
      { eapply Permutation_in; [apply Permutation_sym; exact Hperm|left; reflexivity]. }
      destruct Hina as [Heq|Hina].
      - subst. lra.
      - rewrite Forall_forall in Hh. pose proof (Hh a Hina) as Hle.
        apply end_points_less_false in Hle. lra. }
    subst h. f_equal. apply IH.
    + apply Permutation_cons_inv with (a := a). exact Hperm.
    + apply StronglySorted_Sorted. exact Hr'.
Qed.

Lemma mat3_eq (a b c d e f g h i a' b' c' d' e' f' g' h' i' : R) :
  a = a' -> b = b' -> c = c' -> d = d' -> e = e' -> f = f' -> g = g' -> h = h' -> i = i' ->
  mat3 a b c d e f g h i = mat3 a' b' c' d' e' f' g' h' i'.
Proof. intros; subst; reflexivity. Qed.

Lemma vec3_eq (a b c a' b' c' : R) :
  a = a' -> b = b' -> c = c' -> vec3 a b c = vec3 a' b' c'.
Proof. intros; subst; reflexivity. Qed.

Lemma quat_eq (a b c d a' b' c' d' : R) :
  a = a' -> b = b' -> c = c' -> d = d' -> quat_xyzw a b c d = quat_xyzw a' b' c' d'.
Proof. intros; subst; reflexivity. Qed.

Lemma toRotationMatrix_identity : toRotationMatrix Quaterniond_Identity = Matrix3d_Identity.
Proof.
  unfold toRotationMatrix, Quaterniond_Identity, quat_wxyz, Matrix3d_Identity; simpl.
  apply mat3_eq; ring.
Qed.

Lemma sqrt_4 : sqrt (1 + 1 + 1 + 1) = 2.
Proof.
  replace (1 + 1 + 1 + 1) with (2 * 2) by ring.
  apply sqrt_square. lra.
Qed.

Lemma quat_of_matrix_identity : quat_of_matrix Matrix3d_Identity = Quaterniond_Identity.
Proof.
  unfold quat_of_matrix, Matrix3d_Identity, Quaterniond_Identity, quat_wxyz; simpl.
  destruct (Rgt_dec (1 + 1 + 1) 0) as [_|Hn]; [|exfalso; lra].
  rewrite sqrt_4. apply quat_eq; field.
Qed.

Lemma reference_frame_identity (q : Quaterniond) :
  q = Quaterniond_Identity \/ q = quat_neg Quaterniond_Identity ->
  toRotationMatrix (quat_inverse q) = Matrix3d_Identity.
Proof.
  intros [->| ->];
    unfold quat_inverse, quat_neg, quat_squaredNorm, Quaterniond_Identity, quat_wxyz;
    cbn [q_x q_y q_z q_w];
    (destruct (Rgt_dec _ 0) as [_|Hn]; [|exfalso; lra]);
    unfold toRotationMatrix, Matrix3d_Identity; cbn [q_x q_y q_z q_w];
    apply mat3_eq; field.
Qed.

Lemma toEndPoints_identity_frame (segments : list vector_Affine3d) (q : Quaterniond) :
  toRotationMatrix (quat_inverse q) = Matrix3d_Identity ->
  toEndPoints segments q
  = map (fun i => end_points_of (translation (front (nth i segments [])))
                                (translation (back (nth i segments []))) i)
        (seq 0 (length segments)).
Proof.
  intros Hid. unfold toEndPoints. rewrite Hid. cbv zeta.
  apply map_ext. intros i.
  unfold affine_mul, mat_vec, vadd, Matrix3d_Identity; simpl.
  destruct (translation (front (nth i segments []))) as [ax ay az].
  destruct (translation (back (nth i segments []))) as [bx b_y bz].
  simpl. f_equal; apply vec3_eq; ring.
Qed.

(** The half turn about z, and what [reversePathAndPoses] makes of a pose
    of identity orientation: the position is kept and the orientation is
    the quaternion [(x, y, z, w) = (0, 0, 1, 0)]. *)
Lemma AngleAxis_half_turn : AngleAxis_UnitZ M_PI = half_turn_z.
Proof.
  unfold AngleAxis_UnitZ, M_PI, half_turn_z. rewrite cos_PI, sin_PI.
  apply mat3_eq; ring.
Qed.

Lemma quat_of_matrix_half_turn : quat_of_matrix half_turn_z = quat_xyzw 0 0 1 0.
Proof.
  unfold quat_of_matrix, half_turn_z, quat_wxyz.
  cbn [m00 m01 m02 m10 m11 m12 m20 m21 m22].
  destruct (Rgt_dec (-1 + -1 + 1) 0) as [Hp|_]; [exfalso; lra|].
  destruct (Rgt_dec (-1) (-1)) as [Hp|_]; [exfalso; lra|].
  destruct (Rgt_dec 1 (-1)) as [_|Hn]; [|exfalso; lra].
  replace (1 - -1 - -1 + 1) with (1 + 1 + 1 + 1) by ring.
  rewrite sqrt_4. apply quat_eq; field.
Qed.

Lemma reversed_identity_pose (p : Vector3d) :
  poseEigenToMsg
    (affine_mul (poseMsgToEigen (pose_msg p Quaterniond_Identity))
                (affine (AngleAxis_UnitZ M_PI) (vec3 0 0 0)))
  = pose_msg p (quat_xyzw 0 0 1 0).
Proof.
  unfold poseMsgToEigen. cbn [orientation position].
  rewrite toRotationMatrix_identity, AngleAxis_half_turn.
  assert (E : affine_mul (affine Matrix3d_Identity p) (affine half_turn_z (vec3 0 0 0))
              = affine half_turn_z p).
  { unfold affine_mul, mat_mul, mat_vec, vadd, Matrix3d_Identity, half_turn_z.
    destruct p as [x y z]. simpl. f_equal; [apply mat3_eq; ring|apply vec3_eq; ring]. }
  rewrite E. unfold poseEigenToMsg. cbn [linear translation].
  rewrite quat_of_matrix_half_turn. cbn [q_w].
  destruct (Rlt_dec 0 0) as [H|_]; [exfalso; lra|]. reflexivity.
Qed.

Lemma reversePathAndPoses_straight_segment (y : R) :
  reversePathAndPoses (straight_segment y)
  = [pose_msg (vec3 1 y 0) (quat_xyzw 0 0 1 0); pose_msg (vec3 0 y 0) (quat_xyzw 0 0 1 0)].
Proof.
  unfold reversePathAndPoses, straight_segment. cbn [rev app map].
  rewrite !reversed_identity_pose. reflexivity.
Qed.

Section ThreeLanes.

Variable std_sort : Sorter.
Variable eigensolver : EigenSolver.
Hypothesis sort_keeps_elements : sort_permutes std_sort.
Hypothesis sort_puts_in_order : sort_orders std_sort.
Hypothesis solver_decomposes :
  eigen_decomposition
    (mul_transpose (map coeffs (repeat Quaterniond_Identity 2)))
    (eigensolver (mul_transpose (map coeffs (repeat Quaterniond_Identity 2)))).

Lemma scenario_end_points :
  sorted_end_points std_sort eigensolver [seg0; seg1; seg2]
  = [lane 0 0; lane 1 1; lane 2 2].
Proof using sort_keeps_elements sort_puts_in_order solver_decomposes.
  unfold sorted_end_points. cbv zeta.
  assert (Hlong : longestSegment (toEigen_all [seg0; seg1; seg2]) = 0%nat).
  { unfold longestSegment, end_displacement, front, back, at_, squaredNorm, vsub; simpl.
    repeat (destruct (Rgt_dec _ _) as [?H|?H]; cbn [fst snd] in *; try (exfalso; lra));
      reflexivity. }
  rewrite Hlong.
  assert (Havg : averageQuaternion eigensolver (nth 0 (toEigen_all [seg0; seg1; seg2]) [])
                 = average eigensolver (repeat Quaterniond_Identity 2)).
  { unfold averageQuaternion, rotation; simpl.
    rewrite toRotationMatrix_identity, quat_of_matrix_identity. reflexivity. }
  rewrite Havg.
  pose proof (average_of_copies eigensolver Quaterniond_Identity 2
                Quaterniond_Identity_unit ltac:(lia) solver_decomposes) as Hq.
  rewrite (toEndPoints_identity_frame _ _ (reference_frame_identity _ Hq)).
  apply sorted_permutation_unique.
  - unfold lane, lateral_key. repeat constructor; simpl;
      unfold Rmin; repeat (destruct (Rle_dec _ _)); lra.
  - exact (sort_keeps_elements _).
  - exact (sort_puts_in_order _).
Qed.

(** C7.  The three straight two-point segments at [y = 0, 1, 2], identity
    orientation [(x, y, z, w) = (0, 0, 0, 1)]: [sequence] returns three
    paths.  The first is [seg0] as given, from [(0,0,0)] to [(1,0,0)].
    The second is [seg1] reversed: its poses run from [(1,1,0)] to
    [(0,1,0)], each turned half a turn about its z axis, which makes the
    orientation [(0, 0, 1, 0)].  The third is [seg2] as given, from
    [(0,2,0)] to [(1,2,0)].  The sort and the eigen-solver are any
    routines that keep their contracts. *)
Theorem sequence_three_lanes :
  sequence std_sort eigensolver
    [ [pose_msg (vec3 0 0 0) (quat_xyzw 0 0 0 1); pose_msg (vec3 1 0 0) (quat_xyzw 0 0 0 1)];
      [pose_msg (vec3 0 1 0) (quat_xyzw 0 0 0 1); pose_msg (vec3 1 1 0) (quat_xyzw 0 0 0 1)];
      [pose_msg (vec3 0 2 0) (quat_xyzw 0 0 0 1); pose_msg (vec3 1 2 0) (quat_xyzw 0 0 0 1)] ]
  = [ [pose_msg (vec3 0 0 0) (quat_xyzw 0 0 0 1); pose_msg (vec3 1 0 0) (quat_xyzw 0 0 0 1)];
      [pose_msg (vec3 1 1 0) (quat_xyzw 0 0 1 0); pose_msg (vec3 0 1 0) (quat_xyzw 0 0 1 0)];
      [pose_msg (vec3 0 2 0) (quat_xyzw 0 0 0 1); pose_msg (vec3 1 2 0) (quat_xyzw 0 0 0 1)] ].
Proof using sort_keeps_elements sort_puts_in_order solver_decomposes.
  change (sequence std_sort eigensolver [seg0; seg1; seg2]
          = [seg0;
             [pose_msg (vec3 1 1 0) (quat_xyzw 0 0 1 0);
              pose_msg (vec3 0 1 0) (quat_xyzw 0 0 1 0)];
             seg2]).
  rewrite <- (reversePathAndPoses_straight_segment 1). fold seg1.
  unfold sequence.
  rewrite scenario_end_points.
  assert (Hsteps : sequence_points [lane 0 0; lane 1 1; lane 2 2]
                   = [sequence_point 0 true; sequence_point 1 false; sequence_point 2 true]).
  { unfold sequence_points, lane; simpl.
    unfold Rltb, squaredNorm, vsub; simpl.
    repeat (destruct (Rlt_dec _ _) as [?H|?H];
            unfold current_position in *; simpl in *; try (exfalso; lra));
      reflexivity. }
  rewrite Hsteps. reflexivity.
Qed.

End ThreeLanes.

Lemma sequence_three_lanes_witness :
  sequence insertion_sort diagonal_solver
    [ [pose_msg (vec3 0 0 0) (quat_xyzw 0 0 0 1); pose_msg (vec3 1 0 0) (quat_xyzw 0 0 0 1)];
      [pose_msg (vec3 0 1 0) (quat_xyzw 0 0 0 1); pose_msg (vec3 1 1 0) (quat_xyzw 0 0 0 1)];
      [pose_msg (vec3 0 2 0) (quat_xyzw 0 0 0 1); pose_msg (vec3 1 2 0) (quat_xyzw 0 0 0 1)] ]
  = [ [pose_msg (vec3 0 0 0) (quat_xyzw 0 0 0 1); pose_msg (vec3 1 0 0) (quat_xyzw 0 0 0 1)];
      [pose_msg (vec3 1 1 0) (quat_xyzw 0 0 1 0); pose_msg (vec3 0 1 0) (quat_xyzw 0 0 1 0)];
      [pose_msg (vec3 0 2 0) (quat_xyzw 0 0 0 1); pose_msg (vec3 1 2 0) (quat_xyzw 0 0 0 1)] ].
Proof.
  apply (sequence_three_lanes insertion_sort diagonal_solver).
  - exact insertion_sort_permutes.
  - exact insertion_sort_orders.
  - exact (diagonal_solver_on_identity_copies 2).
Defined.

(** ** Margins: interpolated points *)

Lemma norm_vscale (v : Vector3d) (k : R) : norm (vscale v k) = Rabs k * norm v.
Proof.
  unfold norm.
  replace (squaredNorm (vscale v k)) with (Rsqr k * squaredNorm v)
    by (unfold squaredNorm, vscale, Rsqr; simpl; ring).
  rewrite sqrt_mult; [|apply Rle_0_sqr|apply squaredNorm_nonneg].
  rewrite sqrt_Rsqr_abs. reflexivity.
Qed.

Lemma norm_vsub_sym (p q : Vector3d) : norm (vsub p q) = norm (vsub q p).
Proof. unfold norm, squaredNorm, vsub; simpl. f_equal. ring. Qed.

(** The interpolated point lies [dist] after [start] on the way to [end_]:
    what is left to [end_] is the rest of the step. *)
Lemma interp_to_end (start end_ : Affine3d) (dist : R) :
  0 <= dist <= pointDistance end_ start ->
  0 < pointDistance end_ start ->
  pointDistance (interp start end_ dist) end_ = pointDistance end_ start - dist.
Proof.
  intros Hd HD. unfold pointDistance in *.
  set (D := norm (vsub (translation end_) (translation start))) in *.
  assert (Hv : vsub (translation (interp start end_ dist)) (translation end_)
               = vscale (vsub (translation start) (translation end_)) (1 - dist / D)).
  { unfold interp, normalized, vadd, vscale; simpl. fold D.
    unfold vsub; simpl. apply vec3_eq; field; lra. }
  rewrite Hv, norm_vscale, (norm_vsub_sym (translation start)). fold D.
  rewrite Rabs_right.
  - field. lra.
  - apply Rle_ge. apply Rmult_le_reg_r with (r := D); [lra|].
    replace ((1 - dist / D) * D) with (D - dist) by (field; lra). lra.
Qed.

(** Two points interpolated on one step, one from each end. *)
Lemma interp_both_ends (start end_ : Affine3d) (d1 d2 : R) :
  0 <= d1 -> 0 <= d2 -> d1 + d2 <= pointDistance end_ start ->
  0 < pointDistance end_ start ->
  pointDistance (interp end_ start d2) (interp start end_ d1)
  = pointDistance end_ start - d1 - d2.
Proof.
  intros H1 H2 Hsum HD. unfold pointDistance in *.
  set (D := norm (vsub (translation end_) (translation start))) in *.
  assert (Hv : vsub (translation (interp end_ start d2)) (translation (interp start end_ d1))
               = vscale (vsub (translation end_) (translation start)) (1 - (d1 + d2) / D)).
  { unfold interp, normalized, vadd, vscale; simpl.
    rewrite (norm_vsub_sym (translation start) (translation end_)). fold D.
    unfold vsub; simpl. apply vec3_eq; field; lra. }
  rewrite Hv, norm_vscale. fold D.
  rewrite Rabs_right.
  - field. lra.
  - apply Rle_ge. apply Rmult_le_reg_r with (r := D); [lra|].
    replace ((1 - (d1 + d2) / D) * D) with (D - (d1 + d2)) by (field; lra). lra.
Qed.

(** ** Margins: where the scans stop *)

Section ScanStops.

Variable segment : vector_Affine3d.

Lemma arc_to_pred (i : nat) :
  (1 <= i)%nat -> arc_to segment i = arc_to segment (i - 1) + step_dist segment i.
Proof using Type.
  intros Hi. destruct i as [|i]; [lia|].
  simpl. rewrite Nat.sub_0_r. reflexivity.
Qed.

(** The forward scan entered at index [i] with a positive distance to go
    either runs out of samples, the rest of the polyline being shorter than
    the distance to go, or stops at an index [fi]: the distance to go is not
    used up before sample [fi - 1], and either sample [fi] is within
    [eps] of it (distance [0]) or the cut lies on the step to [fi]. *)
Lemma forward_scan_stops :
  forall iterations i dtg fi fd,
    (1 <= i)%nat -> 0 < dtg ->
    forward_scan segment i iterations dtg = (fi, fd) ->
    (fi = 0%nat /\ arc_to segment (i + iterations - 1) - arc_to segment (i - 1) < dtg)
    \/ ((i <= fi < i + iterations)%nat
        /\ arc_to segment (fi - 1) - arc_to segment (i - 1) < dtg
        /\ ((fd = 0
             /\ Rabs (arc_to segment fi - arc_to segment (i - 1) - dtg) < approxEqual_eps)
            \/ (0 < fd
                /\ fd = dtg - (arc_to segment (fi - 1) - arc_to segment (i - 1))
                /\ fd <= step_dist segment fi))).
Proof.
  induction iterations as [|n IH]; intros i dtg fi fd Hi Hdtg Hscan.
  - simpl in Hscan. injection Hscan as <- <-. left. split; [reflexivity|].
    replace (i + 0 - 1)%nat with (i - 1)%nat by lia. lra.
  - simpl in Hscan. fold (step_dist segment i) in Hscan.
    pose proof (arc_to_pred i Hi) as Hstep.
    destruct (approxEqual (step_dist segment i) dtg approxEqual_eps) eqn:Hap.
    + injection Hscan as <- <-. right. split; [lia|]. split; [lra|].
      left. split; [reflexivity|].
      apply approxEqual_true in Hap.
      replace (arc_to segment i - arc_to segment (i - 1) - dtg)
        with (step_dist segment i - dtg) by lra.
      exact Hap.
    + destruct (Rgt_dec dtg (step_dist segment i)) as [Hgt|Hle].
      * apply IH in Hscan; [|lia|lra].
        replace (S i - 1)%nat with i in Hscan by lia.
        replace (S i + n - 1)%nat with (i + S n - 1)%nat in Hscan by lia.
        destruct Hscan as [(Hfi & Hlen)|(Hfi & Hbefore & Hcut)].
        { left. split; [exact Hfi|lra]. }
        right. split; [lia|]. split; [lra|].
        destruct Hcut as [(Hfd & Habs)|(Hfd & Heq & Hle)].
        { left. split; [exact Hfd|].
          replace (arc_to segment fi - arc_to segment (i - 1) - dtg)
            with (arc_to segment fi - arc_to segment i - (dtg - step_dist segment i))
            by lra.
          exact Habs. }
        right. split; [exact Hfd|]. split; [lra|exact Hle].
      * injection Hscan as <- <-. right. split; [lia|]. split; [lra|].
        right. split; [lra|]. split; lra.
Qed.

(** The same for the reverse scan entered with loop variable [i]: it stops
    at an index [ri < i], or leaves [reverse_index] at [size - 1] when the
    polyline up to sample [i] is shorter than the distance to go. *)
Lemma reverse_scan_stops :
  forall i dtg ri rd,
    0 < dtg ->
    reverse_scan segment i dtg = (ri, rd) ->
    (ri = (length segment - 1)%nat /\ arc_to segment i < dtg)
    \/ ((ri < i)%nat
        /\ arc_to segment i - arc_to segment (ri + 1) < dtg
        /\ ((rd = 0
             /\ Rabs (arc_to segment i - arc_to segment ri - dtg) < approxEqual_eps)
            \/ (0 < rd
                /\ rd = dtg - (arc_to segment i - arc_to segment (ri + 1))
                /\ rd <= step_dist segment (ri + 1)))).
Proof.
  induction i as [|idx IH]; intros dtg ri rd Hdtg Hscan.
  - simpl in Hscan. injection Hscan as <- <-. left. split; [reflexivity|]. simpl. lra.
  - simpl in Hscan.
    replace (pointDistance (at_ segment idx) (at_ segment (idx + 1)))
      with (step_dist segment (S idx)) in Hscan.
    2:{ unfold step_dist. rewrite pointDistance_sym.
        replace (S idx - 1)%nat with idx by lia.
        replace (idx + 1)%nat with (S idx) by lia. reflexivity. }
    assert (Hstep : arc_to segment (S idx) = arc_to segment idx + step_dist segment (S idx))
      by reflexivity.
    destruct (approxEqual (step_dist segment (S idx)) dtg approxEqual_eps) eqn:Hap.
    + injection Hscan as <- <-. right. split; [lia|].
      replace (idx + 1)%nat with (S idx) by lia. split; [lra|].
      left. split; [reflexivity|].
      apply approxEqual_true in Hap.
      replace (arc_to segment (S idx) - arc_to segment idx - dtg)
        with (step_dist segment (S idx) - dtg) by lra.
      exact Hap.
    + destruct (Rgt_dec dtg (step_dist segment (S idx))) as [Hgt|Hle].
      * apply IH in Hscan; [|lra].
        destruct Hscan as [(Hri & Hlen)|(Hri & Hbefore & Hcut)].
        { left. split; [exact Hri|lra]. }
        right. split; [lia|]. split; [lra|].
        destruct Hcut as [(Hrd & Habs)|(Hrd & Heq & Hle)].
        { left. split; [exact Hrd|].
          replace (arc_to segment (S idx) - arc_to segment ri - dtg)
            with (arc_to segment idx - arc_to segment ri - (dtg - step_dist segment (S idx)))
            by lra.
          exact Habs. }
        right. split; [exact Hrd|]. split; [lra|exact Hle].
      * injection Hscan as <- <-. right. split; [lia|].
        replace (idx + 1)%nat with (S idx) by lia. split; [lra|].
        right. split; [lra|]. split; lra.
Qed.

End ScanStops.

(** ** Margins: arc length of the rebuilt segment *)

Lemma segmentLength_nil : segmentLength [] = 0.
Proof. reflexivity. Qed.

Lemma arc_to_cons (a : Affine3d) (l : vector_Affine3d) (k : nat) :
  arc_to (a :: l) (S k) = pointDistance (at_ l 0) a + arc_to l k.
Proof.
  induction k as [|k IH].
  - simpl. unfold step_dist, at_. simpl. lra.
  - change (arc_to (a :: l) (S (S k)))
      with (arc_to (a :: l) (S k) + step_dist (a :: l) (S (S k))).
    rewrite IH. simpl arc_to.
    unfold step_dist, at_. simpl. rewrite Nat.sub_0_r. lra.
Qed.

Lemma segmentLength_cons (a b : Affine3d) (l : vector_Affine3d) :
  segmentLength (a :: b :: l) = pointDistance b a + segmentLength (b :: l).
Proof.
  rewrite !segmentLength_arc. simpl length.
  replace (S (S (length l)) - 1)%nat with (S (length l)) by lia.
  replace (S (length l) - 1)%nat with (length l) by lia.
  rewrite arc_to_cons. reflexivity.
Qed.

Lemma segmentLength_snoc (l : vector_Affine3d) (a b : Affine3d) :
  segmentLength ((l ++ [a]) ++ [b]) = segmentLength (l ++ [a]) + pointDistance b a.
Proof.
  induction l as [|h t IH].
  - simpl app. rewrite segmentLength_cons, !segmentLength_single. lra.
  - destruct t as [|h' t'].
    + simpl app in *. rewrite !segmentLength_cons, !segmentLength_single. lra.
    + simpl app in *. rewrite segmentLength_cons, IH, (segmentLength_cons h h'). lra.
Qed.

(** The samples [fi .. fi + k] of a segment. *)
Lemma segmentLength_range (segment : vector_Affine3d) (fi k : nat) :
  segmentLength (map (at_ segment) (seq fi (S k)))
  = arc_to segment (fi + k) - arc_to segment fi.
Proof.
  induction k as [|k IH].
  - simpl. rewrite segmentLength_single. rewrite Nat.add_0_r. lra.
  - rewrite seq_S, map_app. simpl map at 2.
    rewrite seq_S, map_app in *. simpl map at 2 in IH. simpl map at 2.
    rewrite segmentLength_snoc, IH.
    replace (fi + S k)%nat with (S (fi + k)) by lia.
    simpl arc_to. unfold step_dist.
    replace (S (fi + k) - 1)%nat with (fi + k)%nat by lia. lra.
Qed.

Lemma segmentLength_prepend (segment post : vector_Affine3d) (x : Affine3d) (fi k : nat) :
  segmentLength (x :: map (at_ segment) (seq fi (S k)) ++ post)
  = pointDistance (at_ segment fi) x
    + segmentLength (map (at_ segment) (seq fi (S k)) ++ post).
Proof. simpl. apply segmentLength_cons. Qed.

Lemma segmentLength_append (segment : vector_Affine3d) (y : Affine3d) (fi k : nat) :
  segmentLength (map (at_ segment) (seq fi (S k)) ++ [y])
  = segmentLength (map (at_ segment) (seq fi (S k)))
    + pointDistance y (at_ segment (fi + k)).
Proof.
  rewrite seq_S, map_app. simpl map at 2. apply segmentLength_snoc.
Qed.

(** Arc length of what [applyMargins] rebuilds around a non-empty range of
    kept samples. *)
Lemma segmentLength_rebuilt (segment : vector_Affine3d) (fi k : nat)
      (pre post : vector_Affine3d) (cf cr : R) :
  (pre = [] /\ cf = 0 \/ exists x, pre = [x] /\ cf = pointDistance (at_ segment fi) x) ->
  (post = [] /\ cr = 0
   \/ exists y, post = [y] /\ cr = pointDistance y (at_ segment (fi + k))) ->
  segmentLength (pre ++ map (at_ segment) (seq fi (S k)) ++ post)
  = cf + (arc_to segment (fi + k) - arc_to segment fi) + cr.
Proof.
  intros [[-> ->]|(x & -> & ->)] [[-> ->]|(y & -> & ->)]; simpl app.
  - rewrite app_nil_r. change (at_ segment fi :: map (at_ segment) (seq (S fi) k))
      with (map (at_ segment) (seq fi (S k))).
    rewrite segmentLength_range. lra.
  - change (at_ segment fi :: map (at_ segment) (seq (S fi) k) ++ [y])
      with (map (at_ segment) (seq fi (S k)) ++ [y]).
    rewrite segmentLength_append, segmentLength_range. lra.
  - change (x :: at_ segment fi :: map (at_ segment) (seq (S fi) k) ++ [])
      with (x :: map (at_ segment) (seq fi (S k)) ++ []).
    rewrite segmentLength_prepend, app_nil_r, segmentLength_range. lra.
  - change (x :: at_ segment fi :: map (at_ segment) (seq (S fi) k) ++ [y])
      with (x :: map (at_ segment) (seq fi (S k)) ++ [y]).
    rewrite segmentLength_prepend, segmentLength_append, segmentLength_range. lra.
Qed.

Section Trimming.

Variable segment : vector_Affine3d.
Variable offset : R.
Hypothesis offset_positive : 0 < offset.
Hypothesis long_enough : 2 * offset <= segmentLength segment.

(** Outside the identity branch and with a positive offset, both scans
    find a cut. *)
Lemma scans_find_cuts :
  let n1 := (length segment - 1)%nat in
  let fi := fst (forward_scan segment 1 n1 offset) in
  let fd := snd (forward_scan segment 1 n1 offset) in
  let ri := fst (reverse_scan segment n1 offset) in
  let rd := snd (reverse_scan segment n1 offset) in
  ((1 <= fi <= n1)%nat
   /\ arc_to segment (fi - 1) < offset
   /\ ((fd = 0 /\ Rabs (arc_to segment fi - offset) < approxEqual_eps)
       \/ (0 < fd /\ fd = offset - arc_to segment (fi - 1) /\ fd <= step_dist segment fi)))
  /\ ((ri < n1)%nat
      /\ arc_to segment n1 - arc_to segment (ri + 1) < offset
      /\ ((rd = 0 /\ Rabs (arc_to segment n1 - arc_to segment ri - offset) < approxEqual_eps)
          \/ (0 < rd
              /\ rd = offset - (arc_to segment n1 - arc_to segment (ri + 1))
              /\ rd <= step_dist segment (ri + 1)))).
Proof using offset_positive long_enough.
  pose proof offset_positive as Hoff. pose proof long_enough as Hlong.
  cbv zeta.
  rewrite segmentLength_arc in Hlong.
  set (n1 := (length segment - 1)%nat) in *.
  split.
  - destruct (forward_scan segment 1 n1 offset) as [fi fd] eqn:Hf.
    apply forward_scan_stops in Hf; [|lia|lra].
    replace (1 + n1 - 1)%nat with n1 in Hf by lia.
    simpl arc_to in Hf. simpl fst. simpl snd.
    destruct Hf as [(_ & Hshort)|(Hfi & Hbefore & Hcut)]; [lra|].
    split; [lia|]. split; [lra|].
    destruct Hcut as [(Hfd & Habs)|(Hfd & Heq & Hle)].
    + left. split; [exact Hfd|].
      replace (arc_to segment fi - offset) with (arc_to segment fi - 0 - offset) by lra.
      exact Habs.
    + right. split; [exact Hfd|]. split; [lra|exact Hle].
  - destruct (reverse_scan segment n1 offset) as [ri rd] eqn:Hr.
    apply reverse_scan_stops in Hr; [|lra].
    simpl fst. simpl snd.
    destruct Hr as [(_ & Hshort)|Hfound]; [lra|exact Hfound].
Qed.

(** With a positive offset and a long enough segment, [applyMargins]
    returns, and what it returns is as long as the input less twice the
    offset, up to the tolerance of the two [approxEqual] tests; when both
    scans leave a distance to interpolate, neither test was taken and the
    length is exact. *)
Lemma applyMargins_trims_exactly :
  exists trimmed,
    applyMargins segment offset = Returned trimmed
    /\ Rabs (segmentLength trimmed - (segmentLength segment - 2 * offset))
       < 2 * approxEqual_eps
    /\ (snd (forward_scan segment 1 (length segment - 1) offset) <> 0 ->
        snd (reverse_scan segment (length segment - 1) offset) <> 0 ->
        segmentLength trimmed = segmentLength segment - 2 * offset).
Proof using offset_positive long_enough.
  pose proof offset_positive as Hoff. pose proof long_enough as Hlong.
  pose proof scans_find_cuts as Hscans. cbv zeta in Hscans.
  unfold applyMargins.
  destruct (Rlt_dec (segmentLength segment) (2 * offset)) as [Hlt|_]; [lra|].
  rewrite segmentLength_arc in *.
  set (n1 := (length segment - 1)%nat) in *.
  destruct (forward_scan segment 1 n1 offset) as [fi fd].
  destruct (reverse_scan segment n1 offset) as [ri rd].
  cbn [fst snd] in *.
  destruct Hscans as ((Hfi & Hfbefore & Hfcut) & (Hri & Hrbefore & Hrcut)).
  replace (Nat.eqb fi 0) with false by (symmetry; apply Nat.eqb_neq; lia).
  replace (Nat.eqb ri n1) with false by (symmetry; apply Nat.eqb_neq; lia).
  eexists. split; [reflexivity|].
  set (new_start := interp (at_ segment (fi - 1)) (at_ segment fi) fd).
  set (new_end := interp (at_ segment (ri + 1)) (at_ segment ri) rd).
  set (L := arc_to segment n1) in *.
  assert (Heps : approxEqual_eps = 1 / 1000) by reflexivity.
  pose proof (arc_to_pred segment fi ltac:(lia)) as Hfstep.
  assert (Hrstep : arc_to segment (ri + 1) = arc_to segment ri + step_dist segment (ri + 1)).
  { rewrite (arc_to_pred segment (ri + 1)) by lia.
    replace (ri + 1 - 1)%nat with ri by lia. reflexivity. }
  (* what the two additional points contribute *)
  assert (Hstart : 0 < fd ->
                   pointDistance (at_ segment fi) new_start = arc_to segment fi - offset).
  { intros Hpos. destruct Hfcut as [(H0 & _)|(_ & Heq & Hle)]; [lra|].
    rewrite pointDistance_sym. unfold new_start.
    rewrite interp_to_end; fold (step_dist segment fi); lra. }
  assert (Hend : 0 < rd ->
                 pointDistance new_end (at_ segment ri) = L - arc_to segment ri - offset).
  { intros Hpos. destruct Hrcut as [(H0 & _)|(_ & Heq & Hle)]; [lra|].
    unfold new_end.
    assert (Hd : pointDistance (at_ segment ri) (at_ segment (ri + 1))
                 = step_dist segment (ri + 1)).
    { unfold step_dist. rewrite pointDistance_sym.
      replace (ri + 1 - 1)%nat with ri by lia. reflexivity. }
    rewrite interp_to_end; rewrite Hd; lra. }
  destruct (le_lt_dec fi ri) as [Hle|Hgt].
  - (* some samples are kept *)
    unfold copy_range.
    replace (ri + 1 - fi)%nat with (S (ri - fi)) by lia.
    rewrite (segmentLength_rebuilt segment fi (ri - fi) _ _
               (if Req_dec_T fd 0 then 0 else arc_to segment fi - offset)
               (if Req_dec_T rd 0 then 0 else L - arc_to segment ri - offset)).
    + replace (fi + (ri - fi))%nat with ri by lia.
      destruct (Req_dec_T fd 0) as [Hf0|Hf0]; destruct (Req_dec_T rd 0) as [Hr0|Hr0];
        destruct Hfcut as [(? & Hfa)|(? & ? & ?)]; try lra;
        destruct Hrcut as [(? & Hra)|(? & ? & ?)]; try lra;
        try (apply Rabs_def2 in Hfa); try (apply Rabs_def2 in Hra);
        (split; [apply Rabs_def1; lra|intros; first [contradiction|lra]]).
    + destruct (Req_dec_T fd 0) as [Hf0|Hf0]; [left; auto|right].
      exists new_start. split; [reflexivity|]. symmetry. apply Hstart.
      destruct Hfcut as [(? & _)|(? & _)]; [contradiction|assumption].
    + replace (fi + (ri - fi))%nat with ri by lia.
      destruct (Req_dec_T rd 0) as [Hr0|Hr0]; [left; auto|right].
      exists new_end. split; [reflexivity|]. symmetry. apply Hend.
      destruct Hrcut as [(? & _)|(? & _)]; [contradiction|assumption].
  - (* the two cuts meet: no sample is kept *)
    unfold copy_range.
    replace (ri + 1 - fi)%nat with 0%nat by lia. simpl map. simpl app.
    pose proof (arc_to_mono segment (ri + 1) fi ltac:(lia)) as Hm1.
    pose proof (arc_to_mono segment ri (fi - 1) ltac:(lia)) as Hm2.
    pose proof (arc_to_mono segment ri (ri + 1) ltac:(lia)) as Hm3.
    destruct (Req_dec_T fd 0) as [Hf0|Hf0]; destruct (Req_dec_T rd 0) as [Hr0|Hr0];
      simpl app.
    + rewrite segmentLength_nil.
      destruct Hfcut as [(_ & Hfa)|(? & _)]; [|lra].
      destruct Hrcut as [(_ & Hra)|(? & _)]; [|lra].
      apply Rabs_def2 in Hfa. apply Rabs_def2 in Hra.
      split; [apply Rabs_def1; lra|intros; contradiction].
    + rewrite segmentLength_single.
      destruct Hfcut as [(_ & Hfa)|(? & _)]; [|lra].
      apply Rabs_def2 in Hfa.
      split; [apply Rabs_def1; lra|intros; contradiction].
    + rewrite segmentLength_single.
      destruct Hrcut as [(_ & Hra)|(? & _)]; [|lra].
      apply Rabs_def2 in Hra.
      split; [apply Rabs_def1; lra|intros; contradiction].
    + destruct Hfcut as [(? & _)|(Hfpos & Hfeq & Hfle)]; [contradiction|].
      destruct Hrcut as [(? & _)|(Hrpos & Hreq & Hrle)]; [contradiction|].
      rewrite segmentLength_cons, segmentLength_single.
      destruct (Nat.eq_dec fi (ri + 1)) as [Heq|Hne].
      * unfold new_start, new_end. rewrite <- Heq.
        replace ri with (fi - 1)%nat by lia.
        rewrite interp_both_ends; fold (step_dist segment fi).
        -- rewrite <- Heq in *. split; [apply Rabs_def1; lra|intros; lra].
        -- lra.
        -- lra.
        -- rewrite <- Heq in *. lra.
        -- lra.
      * pose proof (arc_to_mono segment (ri + 1) (fi - 1) ltac:(lia)) as Hm4. lra.
Qed.

(** The tolerance alone. *)
Lemma applyMargins_trims :
  exists trimmed,
    applyMargins segment offset = Returned trimmed
    /\ Rabs (segmentLength trimmed - (segmentLength segment - 2 * offset))
       < 2 * approxEqual_eps.
Proof using offset_positive long_enough.
  destruct applyMargins_trims_exactly as (trimmed & Hret & Hlen & _).
  exists trimmed. split; [exact Hret|exact Hlen].
Qed.

End Trimming.

(** Where [applyMargins] returns: with a non-negative offset and a long
    enough segment, whenever the offset is positive or the segment has two
    samples. *)
Lemma applyMargins_returns (segment : vector_Affine3d) (offset : R) :
  0 <= offset -> 2 * offset <= segmentLength segment ->
  0 < offset \/ (2 <= length segment)%nat ->
  exists trimmed, applyMargins segment offset = Returned trimmed.
Proof.
  intros Hnn Hlong Hcase.
  destruct (Rle_lt_or_eq_dec 0 offset Hnn) as [Hpos|Hzero].
  - destruct (applyMargins_trims segment offset Hpos Hlong) as (trimmed & Hret & _).
    exists trimmed. exact Hret.
  - subst offset. destruct Hcase as [Hpos|Hn]; [lra|].
    eexists. apply applyMargins_offset_zero. exact Hn.
Qed.

(** C5, amended.  With a non-negative offset and [L >= 2 * offset], as
    soon as the offset is positive or the segment has two samples, both
    scans find a cut: the forward scan ends with [forward_index <> 0], the
    reverse scan with [reverse_index <> size - 1], neither [throw] is
    taken and [applyMargins] returns. *)
Theorem applyMargins_scans_find_a_cut (segment : vector_Affine3d) (offset : R) :
  0 <= offset ->
  segmentLength segment >= 2 * offset ->
  0 < offset \/ (2 <= length segment)%nat ->
  fst (forward_scan segment 1 (length segment - 1) offset) <> 0%nat
  /\ fst (reverse_scan segment (length segment - 1) offset) <> (length segment - 1)%nat
  /\ exists trimmed, applyMargins segment offset = Returned trimmed.
Proof.
  intros Hnn Hlong Hcase.
  split; [|split].
  3: apply applyMargins_returns; [exact Hnn|lra|exact Hcase].
  - destruct (Rle_lt_or_eq_dec 0 offset Hnn) as [Hpos|Hzero].
    + pose proof (scans_find_cuts segment offset Hpos ltac:(lra)) as H.
      cbv zeta in H. destruct H as ((Hfi & _) & _). lia.
    + subst offset. destruct Hcase as [Hpos|Hn]; [lra|].
      destruct (length segment) as [|[|m]]; [lia|lia|].
      replace (S (S m) - 1)%nat with (S m) by lia.
      rewrite forward_scan_offset_zero. simpl. lia.
  - destruct (Rle_lt_or_eq_dec 0 offset Hnn) as [Hpos|Hzero].
    + pose proof (scans_find_cuts segment offset Hpos ltac:(lra)) as H.
      cbv zeta in H. destruct H as (_ & (Hri & _)). lia.
    + subst offset. destruct Hcase as [Hpos|Hn]; [lra|].
      remember (length segment) as n eqn:Hlen.
      destruct n as [|[|m]]; [lia|lia|].
      replace (S (S m) - 1)%nat with (S m) by lia.
      rewrite reverse_scan_offset_zero. simpl. lia.
Qed.

Lemma applyMargins_scans_find_a_cut_witness :
  fst (forward_scan unit_steps 1 (length unit_steps - 1) (1 / 2)) <> 0%nat
  /\ fst (reverse_scan unit_steps (length unit_steps - 1) (1 / 2))
     <> (length unit_steps - 1)%nat
  /\ exists trimmed, applyMargins unit_steps (1 / 2) = Returned trimmed.
Proof.
  apply (applyMargins_scans_find_a_cut unit_steps (1 / 2)).
  - lra.
  - unfold unit_steps. arc_on_x. solve_abs.
  - left. lra.
Defined.

(** ** Margins: the length law *)

Lemma approxEqual_yes a b :
  Rabs (a - b) < approxEqual_eps -> approxEqual a b approxEqual_eps = true.
Proof.
  intros H. unfold approxEqual, Rltb. destruct (Rlt_dec _ _); [reflexivity|contradiction].
Qed.

Lemma approxEqual_no a b :
  approxEqual_eps <= Rabs (a - b) -> approxEqual a b approxEqual_eps = false.
Proof.
  intros H. unfold approxEqual, Rltb. destruct (Rlt_dec _ _); [lra|reflexivity].
Qed.

Lemma applyMargins_near_unit_steps :
  applyMargins near_unit_steps 1 = Returned [on_x_axis (10009 / 10000)].
Proof.
  unfold applyMargins, near_unit_steps.
  destruct (Rlt_dec _ _) as [Hlt|_].
  { revert Hlt. arc_on_x. unfold Rabs. repeat destruct (Rcase_abs _); lra. }
  cbn [length Nat.sub forward_scan reverse_scan].
  unfold at_. cbn [nth Nat.sub Nat.add]. rewrite !pointDistance_on_x.
  rewrite !approxEqual_yes.
  2,3: unfold approxEqual_eps, Rabs; repeat destruct (Rcase_abs _); lra.
  cbn [fst snd Nat.eqb].
  destruct (Req_dec_T 0 0) as [_|Hne]; [|exfalso; apply Hne; reflexivity].
  reflexivity.
Qed.

Lemma interp_on_x (s t d : R) :
  s <> t ->
  interp (on_x_axis s) (on_x_axis t) d = on_x_axis (s + (t - s) / Rabs (t - s) * d).
Proof.
  intros Hne. unfold interp, rotation, normalized.
  change (norm (vsub (translation (on_x_axis t)) (translation (on_x_axis s))))
    with (pointDistance (on_x_axis t) (on_x_axis s)).
  rewrite pointDistance_on_x.
  unfold on_x_axis, vadd, vscale, vsub; simpl.
  f_equal. apply vec3_eq; field; apply Rabs_no_R0; lra.
Qed.

(** The trimming scenario of the specification: samples at [x = 0, 1, 2, 3]
    and offset [0.5] give new end points at [x = 0.5] and [x = 2.5] around
    the samples at [x = 1] and [x = 2]. *)
Example applyMargins_unit_steps_half :
  applyMargins unit_steps (1 / 2)
  = Returned [on_x_axis (1 / 2); on_x_axis 1; on_x_axis 2; on_x_axis (5 / 2)].
Proof.
  unfold applyMargins, unit_steps.
  destruct (Rlt_dec _ _) as [Hlt|_].
  { revert Hlt. arc_on_x. solve_abs. }
  cbn [length Nat.sub forward_scan reverse_scan].
  unfold at_. cbn [nth Nat.sub Nat.add]. rewrite !pointDistance_on_x.
  rewrite (approxEqual_no (Rabs (1 - 0)) (1 / 2)) by (unfold approxEqual_eps; solve_abs).
  rewrite (approxEqual_no (Rabs (2 - 3)) (1 / 2)) by (unfold approxEqual_eps; solve_abs).
  destruct (Rgt_dec (1 / 2) (Rabs (1 - 0))) as [Hgt|_].
  { revert Hgt. solve_abs. }
  destruct (Rgt_dec (1 / 2) (Rabs (2 - 3))) as [Hgt|_].
  { revert Hgt. solve_abs. }
  cbn [fst snd Nat.eqb Nat.sub Nat.add nth].
  destruct (Req_dec_T (1 / 2) 0) as [H0|_]; [lra|].
  rewrite !interp_on_x by lra.
  unfold copy_range. cbn [Nat.add Nat.sub seq map app nth]. unfold at_. cbn [nth].
  replace (0 + (1 - 0) / Rabs (1 - 0) * (1 / 2)) with (1 / 2).
  2:{ unfold Rabs. destruct (Rcase_abs _); [try lra; field; lra|try lra; field; lra]. }
  replace (3 + (2 - 3) / Rabs (2 - 3) * (1 / 2)) with (5 / 2).
  2:{ unfold Rabs. destruct (Rcase_abs _); [try lra; field; lra|try lra; field; lra]. }
  reflexivity.
Qed.

(** C2, as stated, fails twice.  With offset [1] and steps of [1.0009]
    both scans cut at the middle sample: the result has length [0] where
    [L - 2 * offset] is [0.0018], further than the tolerance [1e-3] of the
    program.  With offset [0] the first and the last sample are dropped:
    length [1] where [L - 2 * offset] is [3]. *)
Lemma applyMargins_length_law_fails :
  (0 <= 1
   /\ segmentLength near_unit_steps >= 2 * 1
   /\ applyMargins near_unit_steps 1 = Returned [on_x_axis (10009 / 10000)]
   /\ ~ Rabs (segmentLength [on_x_axis (10009 / 10000)]
              - (segmentLength near_unit_steps - 2 * 1)) < approxEqual_eps)
  /\ (0 <= 0
      /\ segmentLength unit_steps >= 2 * 0
      /\ applyMargins unit_steps 0 = Returned [on_x_axis 1; on_x_axis 2]
      /\ Rabs (segmentLength [on_x_axis 1; on_x_axis 2]
               - (segmentLength unit_steps - 2 * 0)) = 2).
Proof.
  split.
  - split; [lra|]. split; [|split].
    + unfold near_unit_steps. arc_on_x. solve_abs.
    + exact applyMargins_near_unit_steps.
    + unfold near_unit_steps, approxEqual_eps. arc_on_x. solve_abs.
  - split; [lra|]. split; [|split].
    + unfold unit_steps. arc_on_x. solve_abs.
    + exact (applyMargins_offset_zero unit_steps ltac:(simpl; lia)).
    + unfold unit_steps. arc_on_x. solve_abs.
Qed.

(** C2, amended.  For a positive offset and a segment of arc length
    [L >= 2 * offset], [applyMargins] returns a segment whose arc length
    differs from [L - 2 * offset] by less than [2e-3], twice the tolerance
    of [approxEqual]; and when both scans end with a distance to
    interpolate ([forward_dist] and [reverse_dist] are not zero, neither
    scan having stopped in its [approxEqual] branch), the arc length is
    [L - 2 * offset] exactly. *)
Theorem applyMargins_length_law (segment : vector_Affine3d) (offset : R) :
  0 < offset ->
  segmentLength segment >= 2 * offset ->
  exists trimmed,
    applyMargins segment offset = Returned trimmed
    /\ Rabs (segmentLength trimmed - (segmentLength segment - 2 * offset)) < 2 * (1 / 1000)
    /\ (snd (forward_scan segment 1 (length segment - 1) offset) <> 0 ->
        snd (reverse_scan segment (length segment - 1) offset) <> 0 ->
        segmentLength trimmed = segmentLength segment - 2 * offset).
Proof.
  intros Hpos Hlong.
  destruct (applyMargins_trims_exactly segment offset Hpos ltac:(lra))
    as (trimmed & Hret & Hlen & Hexact).
  exists trimmed. split; [exact Hret|]. split; [exact Hlen|exact Hexact].
Qed.

Lemma applyMargins_length_law_witness :
  exists trimmed,
    applyMargins unit_steps (1 / 2) = Returned trimmed
    /\ Rabs (segmentLength trimmed - (segmentLength unit_steps - 2 * (1 / 2))) < 2 * (1 / 1000)
    /\ (snd (forward_scan unit_steps 1 (length unit_steps - 1) (1 / 2)) <> 0 ->
        snd (reverse_scan unit_steps (length unit_steps - 1) (1 / 2)) <> 0 ->
        segmentLength trimmed = segmentLength unit_steps - 2 * (1 / 2)).
Proof.
  apply (applyMargins_length_law unit_steps (1 / 2)).
  - lra.
  - unfold unit_steps. arc_on_x. solve_abs.
Defined.

(** * Further properties of the code *)

(** ** Margins: what a call returns *)

Lemma forward_scan_range (segment : vector_Affine3d) :
  forall iterations i dtg,
    fst (forward_scan segment i iterations dtg) = 0%nat
    \/ (i <= fst (forward_scan segment i iterations dtg) < i + iterations)%nat.
Proof.
  induction iterations as [|n IH]; intros i dtg; simpl.
  - left. reflexivity.
  - destruct (approxEqual _ dtg approxEqual_eps); [right; simpl; lia|].
    destruct (Rgt_dec dtg _); [|right; simpl; lia].
    destruct (IH (S i) (dtg - pointDistance (at_ segment i) (at_ segment (i - 1))))
      as [H0|Hr]; [left; exact H0|right; lia].
Qed.

Lemma reverse_scan_range (segment : vector_Affine3d) :
  forall i dtg,
    fst (reverse_scan segment i dtg) = (length segment - 1)%nat
    \/ (fst (reverse_scan segment i dtg) < i)%nat.
Proof.
  induction i as [|idx IH]; intros dtg; simpl.
  - left. reflexivity.
  - destruct (approxEqual _ dtg approxEqual_eps); [right; simpl; lia|].
    destruct (Rgt_dec dtg _); [|right; simpl; lia].
    destruct (IH (dtg - pointDistance (at_ segment idx) (at_ segment (idx + 1))))
      as [H0|Hr]; [left; exact H0|right; lia].
Qed.

(** The two ways [applyMargins] returns: the segment itself, or at most one
    new point, the samples [fi .. ri], at most one new point, with
    [1 <= fi] and [ri <= size - 2]. *)
Lemma applyMargins_returned (segment trimmed : vector_Affine3d) (offset : R) :
  applyMargins segment offset = Returned trimmed ->
  trimmed = segment
  \/ exists fi fd ri rd,
      (1 <= fi < length segment)%nat /\ (ri + 1 < length segment)%nat
      /\ trimmed
         = (if Req_dec_T fd 0 then []
            else [interp (at_ segment (fi - 1)) (at_ segment fi) fd])
             ++ copy_range segment fi ri
             ++ (if Req_dec_T rd 0 then []
                 else [interp (at_ segment (ri + 1)) (at_ segment ri) rd]).
Proof.
  unfold applyMargins.
  destruct (Rlt_dec _ _) as [_|_].
  { intros H. injection H as <-. left. reflexivity. }
  pose proof (forward_scan_range segment (length segment - 1) 1 offset) as Hf.
  pose proof (reverse_scan_range segment (length segment - 1) offset) as Hr.
  destruct (forward_scan segment 1 (length segment - 1) offset) as [fi fd].
  destruct (reverse_scan segment (length segment - 1) offset) as [ri rd].
  cbn [fst snd] in *.
  destruct (Nat.eqb fi 0) eqn:Hfi; [discriminate|].
  destruct (Nat.eqb ri (length segment - 1)) eqn:Hri; [discriminate|].
  apply Nat.eqb_neq in Hfi, Hri.
  intros H. injection H as <-. right.
  exists fi, fd, ri, rd.
  split; [lia|]. split; [lia|reflexivity].
Qed.

Lemma applyMargins_total_for_positive (segment : vector_Affine3d) (offset : R) :
  0 < offset ->
  exists trimmed, applyMargins segment offset = Returned trimmed.
Proof.
  intros Hpos.
  destruct (Rlt_dec (segmentLength segment) (2 * offset)) as [Hshort|Hlong].
  - exists segment. unfold applyMargins.
    destruct (Rlt_dec _ _); [reflexivity|contradiction].
  - destruct (applyMargins_trims segment offset Hpos ltac:(lra)) as (trimmed & Hret & _).
    exists trimmed. exact Hret.
Qed.

(** X1.  With a positive offset [applyMargins] returns for every segment,
    the empty one included: the exception is not thrown. *)
Theorem applyMargins_positive_offset_returns (segment : vector_Affine3d) (offset : R) :
  0 < offset ->
  exists trimmed, applyMargins segment offset = Returned trimmed.
Proof. apply applyMargins_total_for_positive. Qed.

Lemma applyMargins_positive_offset_returns_witness :
  exists trimmed, applyMargins [] 1 = Returned trimmed.
Proof.
  apply (applyMargins_positive_offset_returns [] 1). lra.
Defined.

(** X2.  What [applyMargins] returns never has more samples than the
    segment it was given, whatever the offset. *)
Theorem applyMargins_no_more_samples (segment trimmed : vector_Affine3d) (offset : R) :
  applyMargins segment offset = Returned trimmed ->
  (length trimmed <= length segment)%nat.
Proof.
  intros Hret.
  destruct (applyMargins_returned segment trimmed offset Hret)
    as [->|(fi & fd & ri & rd & Hfi & Hri & ->)]; [lia|].
  rewrite !length_app. unfold copy_range. rewrite length_map, length_seq.
  destruct (Req_dec_T fd 0); destruct (Req_dec_T rd 0); simpl; lia.
Qed.

Lemma applyMargins_no_more_samples_witness :
  (length [on_x_axis (1 / 2); on_x_axis 1; on_x_axis 2; on_x_axis (5 / 2)]
   <= length unit_steps)%nat.
Proof.
  apply (applyMargins_no_more_samples unit_steps _ (1 / 2)).
  exact applyMargins_unit_steps_half.
Defined.

(** X3.  What [applyMargins] returns is a run of consecutive samples of the
    segment, in their order, with at most one new point before it and at
    most one after it. *)
Theorem applyMargins_keeps_a_run (segment trimmed : vector_Affine3d) (offset : R) :
  applyMargins segment offset = Returned trimmed ->
  exists pre kept post before after,
    trimmed = pre ++ kept ++ post
    /\ segment = before ++ kept ++ after
    /\ (length pre <= 1)%nat /\ (length post <= 1)%nat.
Proof.
  intros Hret.
  destruct (applyMargins_returned segment trimmed offset Hret)
    as [->|(fi & fd & ri & rd & Hfi & Hri & ->)].
  - exists [], segment, [], [], []. rewrite app_nil_r. simpl. auto.
  - eexists _, (copy_range segment fi ri), _.
    destruct (le_lt_dec fi (ri + 1)) as [Hle|Hgt].
    + exists (firstn fi segment),
             (skipn (ri + 1 - fi) (skipn fi segment)).
      split; [reflexivity|]. split.
      * rewrite copy_range_sublist by lia.
        rewrite (firstn_skipn (ri + 1 - fi) (skipn fi segment)).
        symmetry. apply firstn_skipn.
      * destruct (Req_dec_T fd 0); destruct (Req_dec_T rd 0); simpl; lia.
    + exists [], segment.
      split; [reflexivity|]. split.
      * unfold copy_range. replace (ri + 1 - fi)%nat with 0%nat by lia. reflexivity.
      * destruct (Req_dec_T fd 0); destruct (Req_dec_T rd 0); simpl; lia.
Qed.

Lemma applyMargins_keeps_a_run_witness :
  exists pre kept post before after,
    [on_x_axis (1 / 2); on_x_axis 1; on_x_axis 2; on_x_axis (5 / 2)] = pre ++ kept ++ post
    /\ unit_steps = before ++ kept ++ after
    /\ (length pre <= 1)%nat /\ (length post <= 1)%nat.
Proof.
  apply (applyMargins_keeps_a_run unit_steps _ (1 / 2)).
  exact applyMargins_unit_steps_half.
Defined.





(** Before the index at which the forward scan stops, every sample is short
    of the distance to go by at least the tolerance. *)
Lemma forward_scan_before (segment : vector_Affine3d) :
  forall iterations i dtg fi fd,
    (1 <= i)%nat ->
    forward_scan segment i iterations dtg = (fi, fd) ->
    forall k, (i <= k < fi)%nat ->
              approxEqual_eps <= dtg - (arc_to segment k - arc_to segment (i - 1)).
Proof.
  induction iterations as [|n IH]; intros i dtg fi fd Hi Hscan k Hk.
  - simpl in Hscan. injection Hscan as <- <-. lia.
  - simpl in Hscan. fold (step_dist segment i) in Hscan.
    pose proof (arc_to_pred segment i Hi) as Hstep.
    destruct (approxEqual (step_dist segment i) dtg approxEqual_eps) eqn:Hap.
    + injection Hscan as <- <-. lia.
    + destruct (Rgt_dec dtg (step_dist segment i)) as [Hgt|Hle].
      * apply approxEqual_false in Hap.
        assert (Hgap : approxEqual_eps <= dtg - step_dist segment i).
        { revert Hap. unfold Rabs. destruct (Rcase_abs _); lra. }
        destruct (Nat.eq_dec k i) as [->|Hne]; [lra|].
        pose proof (IH (S i) _ fi fd ltac:(lia) Hscan k ltac:(lia)) as Hk'.
        replace (S i - 1)%nat with i in Hk' by lia. lra.
      * injection Hscan as <- <-. lia.
Qed.

Lemma applyMargins_offset_above_eps (segment : vector_Affine3d) (offset : R) :
  approxEqual_eps <= offset ->
  segment <> [] ->
  exists trimmed, applyMargins segment offset = Returned trimmed /\ trimmed <> [].
Proof.
  intros Hoff Hne.
  assert (Heps : approxEqual_eps = 1 / 1000) by reflexivity.
  assert (Hpos : 0 < offset) by lra.
  destruct (Rlt_dec (segmentLength segment) (2 * offset)) as [Hshort|Hlong].
  { exists segment. split; [|exact Hne]. unfold applyMargins.
    destruct (Rlt_dec _ _); [reflexivity|contradiction]. }
  assert (Hlong' : 2 * offset <= segmentLength segment) by lra.
  pose proof (scans_find_cuts segment offset Hpos Hlong') as Hscans. cbv zeta in Hscans.
  pose proof (forward_scan_before segment (length segment - 1) 1 offset) as Hbefore.
  unfold applyMargins.
  destruct (Rlt_dec _ _) as [?|_]; [contradiction|].
  rewrite segmentLength_arc in Hlong'.
  set (n1 := (length segment - 1)%nat) in *.
  destruct (forward_scan segment 1 n1 offset) as [fi fd].
  destruct (reverse_scan segment n1 offset) as [ri rd].
  cbn [fst snd] in *.
  specialize (Hbefore fi fd (le_n 1) eq_refl).
  destruct Hscans as ((Hfi & _ & Hfcut) & (Hri & _ & Hrcut)).
  replace (Nat.eqb fi 0) with false by (symmetry; apply Nat.eqb_neq; lia).
  replace (Nat.eqb ri n1) with false by (symmetry; apply Nat.eqb_neq; lia).
  eexists. split; [reflexivity|].
  destruct (Req_dec_T fd 0) as [Hf0|Hf0]; [|discriminate].
  destruct (Req_dec_T rd 0) as [Hr0|Hr0].
  2:{ intros Hnil. apply app_eq_nil in Hnil. destruct Hnil as [_ Hnil].
      apply app_eq_nil in Hnil. destruct Hnil as [_ Hnil]. discriminate. }
  simpl app. rewrite app_nil_r. unfold copy_range.
  destruct (le_lt_dec fi ri) as [Hle|Hgt].
  { replace (ri + 1 - fi)%nat with (S (ri - fi)) by lia. discriminate. }
  exfalso.
  destruct Hfcut as [(_ & Hfa)|(? & _)]; [|lra].
  destruct Hrcut as [(_ & Hra)|(? & _)]; [|lra].
  apply Rabs_def2 in Hra.
  destruct ri as [|ri'].
  - simpl arc_to in Hra. lra.
  - pose proof (Hbefore (S ri') ltac:(lia)) as Hk. simpl arc_to in Hk, Hra. lra.
Qed.

(** X5.  With an offset of at least the tolerance [1e-3], [applyMargins]
    returns a segment with at least one sample whenever it is given
    one. *)
Theorem applyMargins_result_not_empty (segment : vector_Affine3d) (offset : R) :
  approxEqual_eps <= offset ->
  segment <> [] ->
  exists trimmed, applyMargins segment offset = Returned trimmed /\ trimmed <> [].
Proof. apply applyMargins_offset_above_eps. Qed.

(** Below the tolerance the result can be empty: two samples [0.0015]
    apart and offset [0.0006]. *)
Example applyMargins_small_offset_empty :
  applyMargins [on_x_axis 0; on_x_axis (15 / 10000)] (6 / 10000) = Returned [].
Proof.
  unfold applyMargins.
  destruct (Rlt_dec _ _) as [Hlt|_].
  { revert Hlt. arc_on_x. solve_abs. }
  cbn [length Nat.sub forward_scan reverse_scan].
  unfold at_. cbn [nth Nat.sub Nat.add]. rewrite !pointDistance_on_x.
  rewrite !approxEqual_yes.
  2,3: unfold approxEqual_eps, Rabs; repeat destruct (Rcase_abs _); lra.
  cbn [fst snd Nat.eqb].
  destruct (Req_dec_T 0 0) as [_|Hne]; [|exfalso; apply Hne; reflexivity].
  reflexivity.
Qed.

Lemma applyMargins_result_not_empty_witness :
  exists trimmed,
    applyMargins unit_steps generatePath_offset = Returned trimmed /\ trimmed <> [].
Proof.
  apply (applyMargins_result_not_empty unit_steps generatePath_offset).
  - unfold approxEqual_eps, generatePath_offset. lra.
  - discriminate.
Defined.

(** X6.  The point interpolated between two samples at different
    positions, for a distance between [0] and their distance: it lies at
    that distance from the first and at the rest of the step from the
    second. *)
Theorem interp_on_the_step (start end_ : Affine3d) (dist : R) :
  0 < pointDistance end_ start ->
  0 <= dist <= pointDistance end_ start ->
  pointDistance (interp start end_ dist) start = dist
  /\ pointDistance (interp start end_ dist) end_ = pointDistance end_ start - dist.
Proof.
  intros HD Hd. split.
  - unfold pointDistance in *.
    set (D := norm (vsub (translation end_) (translation start))) in *.
    assert (Hv : vsub (translation (interp start end_ dist)) (translation start)
                 = vscale (vsub (translation end_) (translation start)) (dist / D)).
    { unfold interp, normalized, vadd, vscale; simpl. fold D.
      unfold vsub; simpl. apply vec3_eq; field; lra. }
    rewrite Hv, norm_vscale. fold D.
    rewrite Rabs_right.
    + field. lra.
    + apply Rle_ge. apply Rmult_le_reg_r with (r := D); [lra|].
      replace (dist / D * D) with dist by (field; lra). lra.
  - apply interp_to_end; assumption.
Qed.

Lemma interp_on_the_step_witness :
  pointDistance (interp (on_x_axis 0) (on_x_axis 1) (1 / 2)) (on_x_axis 0) = 1 / 2
  /\ pointDistance (interp (on_x_axis 0) (on_x_axis 1) (1 / 2)) (on_x_axis 1)
     = pointDistance (on_x_axis 1) (on_x_axis 0) - 1 / 2.
Proof.
  assert (HD : pointDistance (on_x_axis 1) (on_x_axis 0) = 1).
  { rewrite pointDistance_on_x. solve_abs. }
  apply (interp_on_the_step (on_x_axis 0) (on_x_axis 1) (1 / 2)).
  - rewrite HD. lra.
  - rewrite HD. lra.
Defined.

(** ** Margins over a list of paths, and the planner *)

Lemma applyMargins_paths_loop (offset : R) :
  0 < offset ->
  forall (segments : list vector_Affine3d) (acc : list PoseArray),
  exists out,
    fold_left
      (fun (result : outcome (list PoseArray)) (segment : vector_Affine3d) =>
         match result with
         | Thrown_logic_error what => Thrown_logic_error what
         | Returned rs =>
             match applyMargins segment offset with
             | Thrown_logic_error what => Thrown_logic_error what
             | Returned with_margins => Returned (rs ++ [toMsg with_margins])
             end
         end)
      segments (Returned acc)
    = Returned (acc ++ out)
    /\ Forall2 (fun segment o =>
                  exists trimmed,
                    applyMargins segment offset = Returned trimmed /\ o = toMsg trimmed)
               segments out.
Proof.
  intros Hpos. induction segments as [|s rest IH]; intros acc.
  - exists []. rewrite app_nil_r. split; [reflexivity|constructor].
  - destruct (applyMargins_total_for_positive s offset Hpos) as (trimmed & Hret).
    simpl fold_left. rewrite Hret.
    destruct (IH (acc ++ [toMsg trimmed])) as (out & Hfold & Hall).
    exists (toMsg trimmed :: out). split.
    + rewrite Hfold, <- app_assoc. reflexivity.
    + constructor; [|exact Hall]. exists trimmed. auto.
Qed.

Lemma applyMargins_paths_returns (paths : list PoseArray) (offset : R) :
  0 < offset ->
  exists out,
    applyMargins_paths paths offset = Returned out
    /\ Forall2 (fun p o =>
                  exists trimmed,
                    applyMargins (toEigen p) offset = Returned trimmed /\ o = toMsg trimmed)
               paths out.
Proof.
  intros Hpos.
  destruct (applyMargins_paths_loop offset Hpos (toEigen_all paths) []) as (out & Hfold & Hall).
  exists out. split; [exact Hfold|].
  unfold toEigen_all in Hall. clear Hfold. revert out Hall.
  induction paths as [|p rest IH]; intros out Hall; inversion Hall; subst; constructor; auto.
Qed.

(** X7.  With a positive offset, [applyMargins] on a list of paths returns
    one path per input path, in the same order, each being the trimmed
    path converted back to a message: no exception and no path lost. *)
Theorem applyMargins_paths_one_per_path (paths : list PoseArray) (offset : R) :
  0 < offset ->
  exists out,
    applyMargins_paths paths offset = Returned out
    /\ length out = length paths
    /\ Forall2 (fun p o =>
                  exists trimmed,
                    applyMargins (toEigen p) offset = Returned trimmed /\ o = toMsg trimmed)
               paths out.
Proof.
  intros Hpos.
  destruct (applyMargins_paths_returns paths offset Hpos) as (out & Hret & Hall).
  exists out. split; [exact Hret|]. split; [|exact Hall].
  symmetry. eapply Forall2_length. exact Hall.
Qed.

Lemma applyMargins_paths_one_per_path_witness :
  exists out,
    applyMargins_paths [seg0; seg1; seg2] 1 = Returned out
    /\ length out = 3%nat.
Proof.
  destruct (applyMargins_paths_one_per_path [seg0; seg1; seg2] 1) as (out & Hret & Hlen & _).
  - lra.
  - exists out. split; [exact Hret|exact Hlen].
Defined.

Section Planner.

Variable std_sort : Sorter.
Variable eigensolver : EigenSolver.
Hypothesis sort_keeps_elements : sort_permutes std_sort.

Lemma sequence_length (input : list PoseArray) :
  length (sequence std_sort eigensolver input) = length input.
Proof using sort_keeps_elements.
  destruct input as [|s rest]; [reflexivity|].
  unfold sequence, makeSequence. rewrite length_map. symmetry.
  apply (makeSequence_assertion std_sort eigensolver sort_keeps_elements). discriminate.
Qed.

(** X8.  From non-empty paths of the upstream planner, [generatePath]
    throws no exception: the margins leave one non-empty path per input
    path, which is what [sequence] needs to read end points, and the
    sequence returned has as many paths as the planner gave. *)
Theorem generatePath_paths_returns (paths : list PoseArray) :
  Forall (fun p => p <> []) paths ->
  exists trimmed,
    applyMargins_paths paths generatePath_offset = Returned trimmed
    /\ Forall (fun p => p <> []) trimmed
    /\ generatePath_paths std_sort eigensolver paths
       = Returned (sequence std_sort eigensolver trimmed)
    /\ length (sequence std_sort eigensolver trimmed) = length paths.
Proof using sort_keeps_elements.
  intros Hne.
  assert (Hoff : approxEqual_eps <= generatePath_offset).
  { unfold approxEqual_eps, generatePath_offset. lra. }
  assert (Hpos : 0 < generatePath_offset).
  { unfold generatePath_offset. lra. }
  destruct (applyMargins_paths_returns paths generatePath_offset Hpos) as (out & Hret & Hall).
  exists out. split; [exact Hret|]. split; [|split].
  - clear Hret. induction Hall as [|p o ps os (trimmed & Htrim & ->) Hrest IH];
      [constructor|].
    inversion Hne as [|? ? Hp Hps]; subst.
    constructor; [|apply IH; exact Hps].
    destruct (applyMargins_offset_above_eps (toEigen p) generatePath_offset Hoff)
      as (trimmed' & Htrim' & Hne').
    + destruct p; [contradiction|discriminate].
    + rewrite Htrim in Htrim'. injection Htrim' as <-.
      destruct trimmed; [contradiction|discriminate].
  - unfold generatePath_paths. rewrite Hret. reflexivity.
  - rewrite sequence_length. symmetry. eapply Forall2_length. exact Hall.
Qed.

End Planner.

Lemma generatePath_paths_returns_witness :
  exists trimmed,
    applyMargins_paths [seg0; seg1; seg2] generatePath_offset = Returned trimmed
    /\ Forall (fun p => p <> []) trimmed.
Proof.
  destruct (generatePath_paths_returns insertion_sort diagonal_solver insertion_sort_permutes
                                       [seg0; seg1; seg2])
    as (trimmed & Hret & Hne & _).
  - repeat constructor; discriminate.
  - exists trimmed. split; [exact Hret|exact Hne].
Defined.

(** ** Conversions between messages and transforms *)

Lemma sqrt_4sq (a : R) : sqrt (4 * (a * a)) = 2 * Rabs a.
Proof.
  replace (4 * (a * a)) with (Rsqr (2 * a)) by (unfold Rsqr; ring).
  rewrite sqrt_Rsqr_abs, Rabs_mult, (Rabs_right 2) by lra. reflexivity.
Qed.

(** The quaternion read back from the matrix of a unit quaternion is that
    quaternion or its opposite, in each of the four branches. *)
Lemma quat_of_matrix_toRotationMatrix (q : Quaterniond) :
  quat_squaredNorm q = 1 ->
  quat_of_matrix (toRotationMatrix q) = q \/ quat_of_matrix (toRotationMatrix q) = quat_neg q.
Proof.
  destruct q as [x y z w]. unfold quat_squaredNorm; cbn [q_x q_y q_z q_w]. intros Hunit.
  unfold quat_of_matrix, toRotationMatrix, quat_neg, quat_wxyz.
  cbn [q_x q_y q_z q_w m00 m01 m02 m10 m11 m12 m20 m21 m22].
  destruct (Rgt_dec _ 0) as [Ht|Ht].
  - replace (1 - (2 * y * y + 2 * z * z) + (1 - (2 * x * x + 2 * z * z))
             + (1 - (2 * x * x + 2 * y * y)) + 1) with (4 * (w * w)) by lra.
    rewrite sqrt_4sq.
    assert (Hw : w <> 0) by (intros ->; lra).
    unfold Rabs. destruct (Rcase_abs w) as [Hneg|Hpos].
    + right. apply quat_eq; field; lra.
    + left. apply quat_eq; field; lra.
  - destruct (Rgt_dec (1 - (2 * x * x + 2 * z * z)) (1 - (2 * y * y + 2 * z * z))) as [H10|H10].
    + destruct (Rgt_dec _ _) as [H2|H2].
      * replace (1 - (2 * x * x + 2 * y * y) - (1 - (2 * y * y + 2 * z * z))
                 - (1 - (2 * x * x + 2 * z * z)) + 1) with (4 * (z * z)) by lra.
        rewrite sqrt_4sq.
        assert (Hz : z <> 0) by (intros ->; nra).
        unfold Rabs. destruct (Rcase_abs z) as [Hneg|Hpos].
        -- right. apply quat_eq; field; lra.
        -- left. apply quat_eq; field; lra.
      * replace (1 - (2 * x * x + 2 * z * z) - (1 - (2 * x * x + 2 * y * y))
                 - (1 - (2 * y * y + 2 * z * z)) + 1) with (4 * (y * y)) by lra.
        rewrite sqrt_4sq.
        assert (Hy : y <> 0) by (intros ->; nra).
        unfold Rabs. destruct (Rcase_abs y) as [Hneg|Hpos].
        -- right. apply quat_eq; field; lra.
        -- left. apply quat_eq; field; lra.
    + destruct (Rgt_dec _ _) as [H2|H2].
      * replace (1 - (2 * x * x + 2 * y * y) - (1 - (2 * y * y + 2 * z * z))
                 - (1 - (2 * x * x + 2 * z * z)) + 1) with (4 * (z * z)) by lra.
        rewrite sqrt_4sq.
        assert (Hz : z <> 0) by (intros ->; nra).
        unfold Rabs. destruct (Rcase_abs z) as [Hneg|Hpos].
        -- right. apply quat_eq; field; lra.
        -- left. apply quat_eq; field; lra.
      * replace (1 - (2 * y * y + 2 * z * z) - (1 - (2 * x * x + 2 * z * z))
                 - (1 - (2 * x * x + 2 * y * y)) + 1) with (4 * (x * x)) by lra.
        rewrite sqrt_4sq.
        assert (Hx : x <> 0) by (intros ->; nra).
        unfold Rabs. destruct (Rcase_abs x) as [Hneg|Hpos].
        -- right. apply quat_eq; field; lra.
        -- left. apply quat_eq; field; lra.
Qed.

Lemma toRotationMatrix_neg (q : Quaterniond) :
  toRotationMatrix (quat_neg q) = toRotationMatrix q.
Proof.
  unfold toRotationMatrix, quat_neg. cbn [q_x q_y q_z q_w]. apply mat3_eq; ring.
Qed.

Lemma quat_neg_unit (q : Quaterniond) :
  quat_squaredNorm (quat_neg q) = quat_squaredNorm q.
Proof. unfold quat_squaredNorm, quat_neg. cbn [q_x q_y q_z q_w]. ring. Qed.

(** The message made from the transform of a unit quaternion [q] at
    position [t]: the same position, [q] or [- q] with a non-negative
    [w]. *)
Lemma poseEigenToMsg_of_unit (q : Quaterniond) (t : Vector3d) :
  quat_squaredNorm q = 1 ->
  let m := poseEigenToMsg (affine (toRotationMatrix q) t) in
  position m = t
  /\ (orientation m = q \/ orientation m = quat_neg q)
  /\ 0 <= q_w (orientation m).
Proof.
  intros Hunit. cbv zeta. unfold poseEigenToMsg. cbn [linear translation position orientation].
  split; [reflexivity|].
  destruct (quat_of_matrix_toRotationMatrix q Hunit) as [-> | ->].
  - destruct (Rlt_dec (q_w q) 0) as [Hneg|Hpos].
    + split; [right; reflexivity|]. cbn [q_w]. lra.
    + split; [left; reflexivity|]. lra.
  - destruct (Rlt_dec (q_w (quat_neg q)) 0) as [Hneg|Hpos].
    + split.
      * left. destruct q; unfold quat_neg; cbn [q_x q_y q_z q_w]. apply quat_eq; ring.
      * cbn [q_w]. lra.
    + split; [right; reflexivity|]. lra.
Qed.

Lemma poseMsgToEigen_poseEigenToMsg (q : Quaterniond) (t : Vector3d) :
  quat_squaredNorm q = 1 ->
  poseMsgToEigen (poseEigenToMsg (affine (toRotationMatrix q) t))
  = affine (toRotationMatrix q) t.
Proof.
  intros Hunit.
  destruct (poseEigenToMsg_of_unit q t Hunit) as (Hpos & Hor & _).
  unfold poseMsgToEigen. rewrite Hpos.
  destruct Hor as [-> | ->]; [reflexivity|].
  rewrite toRotationMatrix_neg. reflexivity.
Qed.

(** X9.  For poses with unit orientations, converting to transforms, back
    to messages and to transforms again gives the same transforms; the
    messages in between have the same positions and the same orientations
    up to the sign of the quaternion, with [w >= 0]. *)
Theorem toEigen_toMsg_round_trip (path : PoseArray) :
  unit_orientations path ->
  toEigen (toMsg (toEigen path)) = toEigen path
  /\ Forall2 (fun m m' =>
                position m' = position m
                /\ (orientation m' = orientation m \/ orientation m' = quat_neg (orientation m))
                /\ 0 <= q_w (orientation m'))
             path (toMsg (toEigen path)).
Proof.
  unfold unit_orientations, toEigen, toMsg.
  induction 1 as [|m rest Hm Hrest [IH1 IH2]]; [split; [reflexivity|constructor]|].
  simpl map. split.
  - rewrite IH1. f_equal.
    unfold poseMsgToEigen at 2. apply poseMsgToEigen_poseEigenToMsg. exact Hm.
  - constructor; [|exact IH2].
    unfold poseMsgToEigen. exact (poseEigenToMsg_of_unit (orientation m) (position m) Hm).
Qed.

Lemma toEigen_toMsg_round_trip_witness :
  toEigen (toMsg (toEigen seg1)) = toEigen seg1.
Proof.
  destruct (toEigen_toMsg_round_trip seg1) as (H & _).
  - repeat constructor; exact Quaterniond_Identity_unit.
  - exact H.
Defined.

(** ** Reversal of a path *)

Lemma toRotationMatrix_turn_z (q : Quaterniond) :
  quat_squaredNorm q = 1 ->
  mat_mul (toRotationMatrix q) half_turn_z = toRotationMatrix (quat_turn_z q).
Proof.
  destruct q as [x y z w]. unfold quat_squaredNorm. cbn [q_x q_y q_z q_w]. intros Hunit.
  unfold mat_mul, toRotationMatrix, half_turn_z, quat_turn_z.
  cbn [q_x q_y q_z q_w m00 m01 m02 m10 m11 m12 m20 m21 m22].
  apply mat3_eq; try ring; lra.
Qed.

Lemma quat_turn_z_unit (q : Quaterniond) :
  quat_squaredNorm (quat_turn_z q) = quat_squaredNorm q.
Proof. unfold quat_squaredNorm, quat_turn_z. cbn [q_x q_y q_z q_w]. ring. Qed.

(** One pose of [reversePathAndPoses]. *)
Lemma reversed_pose (m : Pose) :
  quat_squaredNorm (orientation m) = 1 ->
  let m' := poseEigenToMsg
              (affine_mul (poseMsgToEigen m) (affine (AngleAxis_UnitZ M_PI) (vec3 0 0 0))) in
  poseMsgToEigen m' = turned_about_z (poseMsgToEigen m)
  /\ quat_squaredNorm (orientation m') = 1.
Proof.
  intros Hunit. cbv zeta.
  assert (Hmul : affine_mul (poseMsgToEigen m) (affine (AngleAxis_UnitZ M_PI) (vec3 0 0 0))
                 = affine (toRotationMatrix (quat_turn_z (orientation m))) (position m)).
  { unfold affine_mul, poseMsgToEigen. cbn [linear translation].
    rewrite AngleAxis_half_turn, toRotationMatrix_turn_z by exact Hunit. f_equal.
    unfold mat_vec, vadd. destruct (position m) as [px py pz]; simpl.
    apply vec3_eq; ring. }
  rewrite Hmul.
  assert (Hunit' : quat_squaredNorm (quat_turn_z (orientation m)) = 1).
  { rewrite quat_turn_z_unit. exact Hunit. }
  split.
  - rewrite poseMsgToEigen_poseEigenToMsg by exact Hunit'.
    unfold turned_about_z, poseMsgToEigen. cbn [linear translation].
    rewrite toRotationMatrix_turn_z by exact Hunit. reflexivity.
  - destruct (poseEigenToMsg_of_unit _ (position m) Hunit') as (_ & [-> | ->] & _).
    + exact Hunit'.
    + rewrite quat_neg_unit. exact Hunit'.
Qed.

Lemma toEigen_reversePathAndPoses (path : PoseArray) :
  unit_orientations path ->
  toEigen (reversePathAndPoses path) = map turned_about_z (rev (toEigen path))
  /\ unit_orientations (reversePathAndPoses path).
Proof.
  intros Hunit. unfold reversePathAndPoses, toEigen, unit_orientations in *.
  rewrite <- map_rev.
  apply Forall_rev in Hunit.
  induction Hunit as [|m rest Hm Hrest [IH1 IH2]]; [split; [reflexivity|constructor]|].
  simpl map. destruct (reversed_pose m Hm) as (Heig & Hu).
  split.
  - rewrite IH1. f_equal. exact Heig.
  - constructor; [exact Hu|exact IH2].
Qed.

(** X10.  For poses with unit orientations, [reversePathAndPoses] gives,
    as transforms, the poses in the opposite order, each at its position
    and with its rotation turned by half a turn about its own z axis (the
    x and the y axis change sign, the z axis stays); the orientations
    stay unit. *)
Theorem reversePathAndPoses_turns_about_z (path : PoseArray) :
  unit_orientations path ->
  toEigen (reversePathAndPoses path) = map turned_about_z (rev (toEigen path))
  /\ unit_orientations (reversePathAndPoses path).
Proof. apply toEigen_reversePathAndPoses. Qed.

Lemma reversePathAndPoses_turns_about_z_witness :
  toEigen (reversePathAndPoses seg1) = map turned_about_z (rev (toEigen seg1)).
Proof.
  destruct (reversePathAndPoses_turns_about_z seg1) as (H & _).
  - repeat constructor; exact Quaterniond_Identity_unit.
  - exact H.
Defined.

Lemma turned_about_z_twice (e : Affine3d) : turned_about_z (turned_about_z e) = e.
Proof.
  destruct e as [[a b c d e f g h i] t].
  unfold turned_about_z, mat_mul, half_turn_z. cbn [linear translation].
  f_equal. cbn [m00 m01 m02 m10 m11 m12 m20 m21 m22]. apply mat3_eq; ring.
Qed.

(** X11.  For poses with unit orientations, reversing a path twice gives
    back the transforms of the path: same order, positions and
    rotations. *)
Theorem reversePathAndPoses_twice (path : PoseArray) :
  unit_orientations path ->
  toEigen (reversePathAndPoses (reversePathAndPoses path)) = toEigen path.
Proof.
  intros Hunit.
  destruct (toEigen_reversePathAndPoses path Hunit) as (H1 & Hunit').
  destruct (toEigen_reversePathAndPoses _ Hunit') as (H2 & _).
  rewrite H2, H1, <- map_rev, rev_involutive, map_map.
  rewrite <- (map_id (toEigen path)) at 2.
  apply map_ext. apply turned_about_z_twice.
Qed.

Lemma reversePathAndPoses_twice_witness :
  toEigen (reversePathAndPoses (reversePathAndPoses seg1)) = toEigen seg1.
Proof.
  apply (reversePathAndPoses_twice seg1).
  repeat constructor; exact Quaterniond_Identity_unit.
Defined.

(** ** The reference frame and the end points *)

Lemma quat_inverse_unit (q : Quaterniond) :
  quat_squaredNorm q = 1 ->
  quat_inverse q = quat_xyzw (- q_x q) (- q_y q) (- q_z q) (q_w q).
Proof.
  intros Hunit. unfold quat_inverse. cbv zeta. rewrite Hunit.
  destruct (Rgt_dec 1 0) as [_|Hn]; [|exfalso; lra].
  apply quat_eq; field.
Qed.

(** The matrix of the inverse of a unit quaternion keeps the length of
    every vector. *)
Lemma rotation_keeps_squaredNorm (q : Quaterniond) (v : Vector3d) :
  quat_squaredNorm q = 1 ->
  squaredNorm (mat_vec (toRotationMatrix (quat_inverse q)) v) = squaredNorm v.
Proof.
  intros Hunit. rewrite (quat_inverse_unit q Hunit).
  destruct q as [x y z w]. destruct v as [a b c].
  unfold quat_squaredNorm in Hunit. cbn [q_x q_y q_z q_w] in *.
  unfold squaredNorm, mat_vec, toRotationMatrix.
  cbn [q_x q_y q_z q_w m00 m01 m02 m10 m11 m12 m20 m21 m22 vec_x vec_y vec_z].
  transitivity (a * a + b * b + c * c
                + 4 * (x * x + y * y + z * z + w * w - 1)
                  * ((y * c - z * b) * (y * c - z * b) + (z * a - x * c) * (z * a - x * c)
                     + (x * b - y * a) * (x * b - y * a))); [ring|].
  rewrite Hunit. ring.
Qed.

Lemma toEndPoints_nth (segments : list vector_Affine3d) (q : Quaterniond) (i : nat) :
  (i < length segments)%nat ->
  let ref_inv := affine (toRotationMatrix (quat_inverse q)) (vec3 0 0 0) in
  nth i (toEndPoints segments q) PathEndPoints_unread
  = end_points_of (translation (affine_mul ref_inv (front (nth i segments []))))
                  (translation (affine_mul ref_inv (back (nth i segments []))))
                  i.
Proof.
  intros Hi. cbv zeta. unfold toEndPoints. cbv zeta.
  set (f := fun i0 : nat => end_points_of _ _ i0).
  rewrite (nth_indep _ PathEndPoints_unread (f 0%nat)) by (rewrite length_map, length_seq; lia).
  rewrite map_nth, seq_nth by lia. reflexivity.
Qed.

Lemma frame_keeps_distance (q : Quaterniond) (e1 e2 : Affine3d) :
  quat_squaredNorm q = 1 ->
  let ref_inv := affine (toRotationMatrix (quat_inverse q)) (vec3 0 0 0) in
  squaredNorm (vsub (translation (affine_mul ref_inv e1)) (translation (affine_mul ref_inv e2)))
  = squaredNorm (vsub (translation e1) (translation e2)).
Proof.
  intros Hunit. cbv zeta.
  rewrite <- (rotation_keeps_squaredNorm q (vsub (translation e1) (translation e2)) Hunit).
  f_equal. unfold affine_mul, vsub, vadd, mat_vec. cbn [linear translation vec_x vec_y vec_z].
  apply vec3_eq; ring.
Qed.

(** X12.  With a unit quaternion as reference rotation and segments that
    each have a sample, the end points made by [toEndPoints] are as far
    from each other as the first and last positions they come from: for
    two segments of the list and either end of each, the squared distance
    is the same in the reference frame. *)
Theorem toEndPoints_keeps_distances (segments : list vector_Affine3d) (q : Quaterniond)
        (i j : nat) (end_i end_j : bool) :
  Forall (fun s => s <> []) segments ->
  quat_squaredNorm q = 1 ->
  (i < length segments)%nat -> (j < length segments)%nat ->
  let projected (e : bool) k :=
    if e then ep_a (nth k (toEndPoints segments q) PathEndPoints_unread)
    else ep_b (nth k (toEndPoints segments q) PathEndPoints_unread) in
  let original (e : bool) k :=
    if e then translation (front (nth k segments []))
    else translation (back (nth k segments [])) in
  squaredNorm (vsub (projected end_i i) (projected end_j j))
  = squaredNorm (vsub (original end_i i) (original end_j j)).
Proof.
  intros _ Hunit Hi Hj. cbv beta zeta.
  rewrite (toEndPoints_nth segments q i Hi), (toEndPoints_nth segments q j Hj).
  destruct end_i, end_j; cbn [ep_a ep_b]; apply (frame_keeps_distance q _ _ Hunit).
Qed.

Lemma toEndPoints_keeps_distances_witness :
  squaredNorm
    (vsub (ep_a (nth 0 (toEndPoints [unit_steps; near_unit_steps] Quaterniond_Identity)
                     PathEndPoints_unread))
          (ep_b (nth 1 (toEndPoints [unit_steps; near_unit_steps] Quaterniond_Identity)
                     PathEndPoints_unread)))
  = squaredNorm (vsub (translation (front unit_steps)) (translation (back near_unit_steps))).
Proof.
  apply (toEndPoints_keeps_distances [unit_steps; near_unit_steps] Quaterniond_Identity
                                     0 1 true false).
  - repeat constructor; discriminate.
  - exact Quaterniond_Identity_unit.
  - simpl. lia.
  - simpl. lia.
Defined.

(** X13.  Whenever the eigenvectors returned by the solver are normalised,
    [average] returns a unit quaternion, whatever the set of quaternions,
    the empty set included. *)
Theorem average_is_unit (eigensolver : EigenSolver) (qs : list Quaterniond) :
  (forall j, (j < 4)%nat ->
             let v := col4 (snd (eigensolver (mul_transpose (map coeffs qs)))) j in
             dot4 v v = 1) ->
  quat_squaredNorm (average eigensolver qs) = 1.
Proof.
  intros Hnorm. rewrite average_max_idx. cbv zeta.
  set (res := eigensolver (mul_transpose (map coeffs qs))) in *.
  pose proof (running_max_invariant (coeff4 (fst res)) 4) as (_ & _ & Hk).
  set (k := fst (running_max (coeff4 (fst res)) 4)) in *.
  assert (Hk4 : (k < 4)%nat) by (destruct Hk as [[-> _]|[H _]]; lia).
  specialize (Hnorm k Hk4). cbv zeta in Hnorm.
  unfold quat_squaredNorm, dot4 in *. cbn [q_x q_y q_z q_w]. exact Hnorm.
Qed.

Lemma average_is_unit_witness :
  quat_squaredNorm (average diagonal_solver []) = 1.
Proof.
  apply (average_is_unit diagonal_solver []).
  intros j Hj. cbv zeta. unfold diagonal_solver, dot4. cbn [snd].
  destruct j as [|[|[|[|j]]]]; [| | | |lia]; simpl; ring.
Defined.

Lemma coeff4_neg (q : Quaterniond) (i : nat) :
  coeff4 (coeffs (quat_neg q)) i = - coeff4 (coeffs q) i.
Proof. destruct i as [|[|[|i]]]; reflexivity. Qed.

Lemma mul_transpose_entry_signs (l : list (bool * Quaterniond)) (i j : nat) :
  fold_right (fun q acc => coeff4 q i * coeff4 q j + acc) 0
             (map coeffs (map (fun p : bool * Quaterniond => if fst p then quat_neg (snd p) else snd p) l))
  = fold_right (fun q acc => coeff4 q i * coeff4 q j + acc) 0 (map coeffs (map snd l)).
Proof.
  induction l as [|[b q] rest IH]; [reflexivity|].
  simpl map. simpl fold_right. rewrite IH.
  destruct b; simpl fst; simpl snd; [|reflexivity].
  rewrite !coeff4_neg. ring.
Qed.

(** X14.  [average] does not see the sign of the quaternions it is given:
    replacing any of them by its opposite leaves [Q * Q^T], and so the
    result, as it is. *)
Theorem average_ignores_signs (eigensolver : EigenSolver) (l : list (bool * Quaterniond)) :
  average eigensolver (map (fun p : bool * Quaterniond => if fst p then quat_neg (snd p) else snd p) l)
  = average eigensolver (map snd l).
Proof.
  assert (HQ : mul_transpose
                 (map coeffs (map (fun p : bool * Quaterniond => if fst p then quat_neg (snd p) else snd p) l))
               = mul_transpose (map coeffs (map snd l))).
  { unfold mul_transpose. cbv zeta. rewrite !mul_transpose_entry_signs. reflexivity. }
  unfold average. cbv zeta. rewrite HQ. reflexivity.
Qed.

(** ** The order of the sequence *)

Section SequenceOrder.

Variable std_sort : Sorter.
Variable eigensolver : EigenSolver.
Hypothesis sort_keeps_elements : sort_permutes std_sort.

Lemma sorted_ids_perm (input : list PoseArray) :
  Permutation (map ep_id (sorted_end_points std_sort eigensolver input))
              (seq 0 (length input)).
Proof using sort_keeps_elements.
  eapply Permutation_trans.
  - apply Permutation_map.
    apply (sorted_end_points_perm std_sort eigensolver sort_keeps_elements).
  - rewrite toEndPoints_ids. unfold toEigen_all. rewrite length_map. apply Permutation_refl.
Qed.

Lemma sorted_id_in_range (input : list PoseArray) (k : nat) :
  (k < length input)%nat ->
  (ep_id (nth k (sorted_end_points std_sort eigensolver input) PathEndPoints_unread)
   < length input)%nat.
Proof using sort_keeps_elements.
  intros Hk.
  pose proof (sorted_end_points_length std_sort eigensolver sort_keeps_elements input) as Hlen.
  assert (Hin : In (ep_id (nth k (sorted_end_points std_sort eigensolver input)
                              PathEndPoints_unread))
                   (seq 0 (length input))).
  { eapply Permutation_in; [apply sorted_ids_perm|].
    apply in_map. apply nth_In. lia. }
  apply in_seq in Hin. lia.
Qed.

(** The [k]-th path of the result. *)
Lemma sequence_nth (input : list PoseArray) (k : nat) :
  (k < length input)%nat ->
  let sorted := sorted_end_points std_sort eigensolver input in
  let source := nth (ep_id (nth k sorted PathEndPoints_unread)) input [] in
  nth k (sequence std_sort eigensolver input) []
  = if sp_from_a (nth k (sequence_points sorted) (sequence_point 0 true))
    then source else reversePathAndPoses source.
Proof using sort_keeps_elements.
  intros Hk. cbv zeta.
  pose proof (sorted_end_points_length std_sort eigensolver sort_keeps_elements input) as Hlen.
  set (sorted := sorted_end_points std_sort eigensolver input) in *.
  destruct (sequence_points_spec sorted (sequence_point 0 true) ltac:(lia)) as (Hl & _).
  pose proof (sequence_points_ids sorted ltac:(lia)) as Hids.
  assert (Hid : sp_id (nth k (sequence_points sorted) (sequence_point 0 true)) = k).
  { pose proof (map_nth sp_id (sequence_points sorted) (sequence_point 0 true) k) as Hm.
    rewrite Hids in Hm. cbn [sp_id] in Hm. rewrite seq_nth in Hm by lia.
    simpl in Hm. symmetry. exact Hm. }
  assert (Hseq : sequence std_sort eigensolver input
                 = makeSequence input (sequence_points sorted) sorted).
  { destruct input; [simpl in Hk; lia|reflexivity]. }
  rewrite Hseq. unfold makeSequence.
  set (f := fun sq : SequencePoint => _).
  rewrite (nth_indep _ [] (f (sequence_point 0 true))) by (rewrite length_map; lia).
  rewrite map_nth. unfold f. cbv zeta. rewrite Hid.
  destruct (sp_from_a _); reflexivity.
Qed.

(** X15.  For a non-empty list of non-empty segments: after the sort, the
    [id] fields of the end points are the indices [0 .. n - 1] of the
    input, each once: [makeSequence] reads every input path exactly once
    and never outside the input. *)
Theorem sorted_ids_are_the_indices (input : list PoseArray) :
  input <> [] ->
  Forall (fun s => s <> []) input ->
  let sorted := sorted_end_points std_sort eigensolver input in
  Permutation (map ep_id sorted) (seq 0 (length input))
  /\ NoDup (map ep_id sorted)
  /\ Forall (fun e => (ep_id e < length input)%nat) sorted.
Proof using sort_keeps_elements.
  intros _ _. cbv zeta. pose proof (sorted_ids_perm input) as Hperm.
  split; [exact Hperm|]. split.
  - eapply Permutation_NoDup; [apply Permutation_sym; exact Hperm|apply seq_NoDup].
  - apply Forall_forall. intros e He.
    assert (Hin : In (ep_id e) (seq 0 (length input))).
    { eapply Permutation_in; [exact Hperm|]. apply in_map. exact He. }
    apply in_seq in Hin. lia.
Qed.

(** X16.  For a non-empty list of non-empty segments, the first path of
    the result is a path of the input as it is: the sequence never starts
    with a reversed path. *)
Theorem sequence_starts_unreversed (input : list PoseArray) :
  input <> [] ->
  Forall (fun s => s <> []) input ->
  exists s, In s input /\ hd_error (sequence std_sort eigensolver input) = Some s.
Proof using sort_keeps_elements.
  intros Hne _.
  assert (Hn : (0 < length input)%nat) by (destruct input; [contradiction|simpl; lia]).
  pose proof (sequence_nth input 0 Hn) as Hnth. cbv zeta in Hnth.
  pose proof (sorted_end_points_length std_sort eigensolver sort_keeps_elements input) as Hlen.
  destruct (sequence_points_spec (sorted_end_points std_sort eigensolver input)
                                 (sequence_point 0 true) ltac:(lia)) as (_ & H0 & _).
  rewrite H0 in Hnth. cbn [sp_from_a] in Hnth.
  pose proof (makeSequence_assertion std_sort eigensolver sort_keeps_elements input Hne) as Hl.
  eexists. split.
  - apply nth_In. apply (sorted_id_in_range input 0 Hn).
  - rewrite <- Hnth.
    destruct (sequence std_sort eigensolver input) as [|s0 rest] eqn:Hs; [|reflexivity].
    exfalso.
    assert (Hlen0 : length (sequence std_sort eigensolver input) = 0%nat)
      by (rewrite Hs; reflexivity).
    destruct input as [|p ps]; [contradiction|].
    unfold sequence, makeSequence in Hlen0. rewrite length_map in Hlen0.
    rewrite <- Hl in Hlen0. simpl in Hlen0. lia.
Qed.

(** X17.  A single path with at least one pose is returned as it is. *)
Theorem sequence_of_one_path (s : PoseArray) :
  s <> [] ->
  sequence std_sort eigensolver [s] = [s].
Proof using sort_keeps_elements.
  intros _.
  pose proof (sequence_nth [s] 0 ltac:(simpl; lia)) as Hnth. cbv zeta in Hnth.
  pose proof (sorted_end_points_length std_sort eigensolver sort_keeps_elements [s]) as Hlen.
  change (length [s]) with 1%nat in Hlen.
  destruct (sequence_points_spec (sorted_end_points std_sort eigensolver [s])
                                 (sequence_point 0 true) ltac:(lia)) as (Hl & H0 & _).
  rewrite H0 in Hnth. cbn [sp_from_a] in Hnth.
  pose proof (sorted_id_in_range [s] 0 ltac:(simpl; lia)) as Hid. simpl length in Hid.
  replace (ep_id (nth 0 (sorted_end_points std_sort eigensolver [s]) PathEndPoints_unread))
    with 0%nat in Hnth by lia.
  cbn [nth] in Hnth.
  assert (Hlen1 : length (sequence std_sort eigensolver [s]) = 1%nat).
  { unfold sequence, makeSequence. rewrite length_map, Hl, Hlen. reflexivity. }
  destruct (sequence std_sort eigensolver [s]) as [|s0 [|s1 rest]];
    simpl in Hlen1; try lia.
  simpl in Hnth. rewrite Hnth. reflexivity.
Qed.



Hypothesis sort_puts_in_order : sort_orders std_sort.


End SequenceOrder.

Lemma sorted_ids_are_the_indices_witness :
  NoDup (map ep_id (sorted_end_points insertion_sort diagonal_solver [seg0; seg1; seg2])).
Proof.
  destruct (sorted_ids_are_the_indices insertion_sort diagonal_solver insertion_sort_permutes
                                       [seg0; seg1; seg2]) as (_ & H & _).
  - discriminate.
  - repeat constructor; discriminate.
  - exact H.
Defined.

Lemma sequence_starts_unreversed_witness :
  exists s, In s [seg0; seg1; seg2]
            /\ hd_error (sequence insertion_sort diagonal_solver [seg0; seg1; seg2]) = Some s.
Proof.
  apply (sequence_starts_unreversed insertion_sort diagonal_solver insertion_sort_permutes).
  - discriminate.
  - repeat constructor; discriminate.
Defined.

Lemma sequence_of_one_path_witness :
  sequence insertion_sort diagonal_solver [seg1] = [seg1].
Proof.
  apply (sequence_of_one_path insertion_sort diagonal_solver insertion_sort_permutes seg1).
  discriminate.
Defined.


(** ** Tools *)

(** X19.  Whatever the parameter server holds, the line spacing of the
    blend tool and of the scan tool is at least [0.01]; above that floor
    it is twice the tool radius less the overlap for the blend tool, and
    the scan width less the overlap for the scan tool. *)
Theorem loadTool_line_spacing (nh : NodeHandle) :
  let radius := loadOrWarn nh TOOL_RADIUS_PARAM (25 / 1000) in
  let overlap := loadOrWarn nh TOOL_OVERLAP_PARAM 0 in
  let width := loadOrWarn nh SCAN_WIDTH_PARAM (25 / 1000) in
  let scan_overlap := loadOrWarn nh SCAN_OVERLAP_PARAM 0 in
  1 / 100 <= line_spacing (NoetherBlendPathPlanner_loadTool nh)
  /\ 1 / 100 <= line_spacing (NoetherScanPathPlanner_loadTool nh)
  /\ (1 / 100 <= radius * 2 - overlap ->
      line_spacing (NoetherBlendPathPlanner_loadTool nh) = radius * 2 - overlap)
  /\ (1 / 100 <= width - scan_overlap ->
      line_spacing (NoetherScanPathPlanner_loadTool nh) = width - scan_overlap)
  /\ (radius * 2 - overlap <= 1 / 100 ->
      line_spacing (NoetherBlendPathPlanner_loadTool nh) = 1 / 100)
  /\ (width - scan_overlap <= 1 / 100 ->
      line_spacing (NoetherScanPathPlanner_loadTool nh) = 1 / 100).
Proof.
  cbv zeta. unfold NoetherBlendPathPlanner_loadTool, NoetherScanPathPlanner_loadTool.
  cbn [line_spacing].
  repeat split; intros; try apply Rmax_l.
  - apply Rmax_right. assumption.
  - apply Rmax_right. assumption.
  - apply Rmax_left. assumption.
  - apply Rmax_left. assumption.
Qed.

(** X20.  When the keys a tool reads are missing, the defaults stand: the
    scan tool is the tool of the base planner (line spacing [0.025]), and
    the blend tool is that tool with line spacing [0.05]. *)
Theorem loadTool_defaults (nh : NodeHandle) :
  nh DISCRETIZATION_PARAM = None ->
  (nh TOOL_RADIUS_PARAM = None -> nh TOOL_OVERLAP_PARAM = None ->
   NoetherBlendPathPlanner_loadTool nh
   = {| pt_spacing := 1 / 100;
        line_spacing := 5 / 100;
        tool_offset := 0;
        intersecting_plane_height := 5 / 100;
        nearest_neighbors := 5;
        min_hole_size := 1 / 100 |})
  /\ (nh SCAN_WIDTH_PARAM = None -> nh SCAN_OVERLAP_PARAM = None ->
      NoetherScanPathPlanner_loadTool nh = NoetherPathPlanner_loadTool).
Proof.
  intros Hd. split; intros H1 H2.
  - unfold NoetherBlendPathPlanner_loadTool, loadOrWarn. rewrite Hd, H1, H2.
    cbn [pt_spacing tool_offset intersecting_plane_height nearest_neighbors min_hole_size
         NoetherPathPlanner_loadTool].
    f_equal. unfold Rmax. destruct (Rle_dec _ _); lra.
  - unfold NoetherScanPathPlanner_loadTool, loadOrWarn. rewrite Hd, H1, H2.
    unfold NoetherPathPlanner_loadTool.
    cbn [pt_spacing tool_offset intersecting_plane_height nearest_neighbors min_hole_size].
    f_equal. unfold Rmax. destruct (Rle_dec _ _); lra.
Qed.

Lemma loadTool_defaults_witness :
  NoetherScanPathPlanner_loadTool no_parameters = NoetherPathPlanner_loadTool.
Proof.
  destruct (loadTool_defaults no_parameters eq_refl) as (_ & H).
  exact (H eq_refl eq_refl).
Defined.

(** X21.  The two tools take their point spacing from the same key,
    [/process_planning_params/blend_params/discretization], the scan tool
    too: when it is set both have its value, and a value under
    [scan_params/discretization] is never read.  The other fields of the
    base tool are never changed. *)
Theorem loadTool_point_spacing (nh : NodeHandle) (spacing : R) :
  nh "/process_planning_params/blend_params/discretization"%string = Some spacing ->
  pt_spacing (NoetherBlendPathPlanner_loadTool nh) = spacing
  /\ pt_spacing (NoetherScanPathPlanner_loadTool nh) = spacing
  /\ (forall nh' : NodeHandle,
         (forall key,
             key <> "/process_planning_params/scan_params/discretization"%string ->
             nh' key = nh key) ->
         NoetherScanPathPlanner_loadTool nh' = NoetherScanPathPlanner_loadTool nh)
  /\ (forall tool,
         tool = NoetherBlendPathPlanner_loadTool nh
         \/ tool = NoetherScanPathPlanner_loadTool nh ->
         tool_offset tool = 0
         /\ intersecting_plane_height tool = 5 / 100
         /\ nearest_neighbors tool = 5%Z
         /\ min_hole_size tool = 1 / 100).
Proof.
  intros Hkey.
  assert (Hd : nh DISCRETIZATION_PARAM = Some spacing) by exact Hkey.
  split; [|split; [|split]].
  - unfold NoetherBlendPathPlanner_loadTool, loadOrWarn. cbn [pt_spacing].
    rewrite Hd. reflexivity.
  - unfold NoetherScanPathPlanner_loadTool, loadOrWarn. cbn [pt_spacing].
    rewrite Hd. reflexivity.
  - intros nh' Hsame.
    unfold NoetherScanPathPlanner_loadTool, loadOrWarn.
    rewrite !Hsame by (intros Heq; discriminate Heq). reflexivity.
  - intros tool [-> | ->]; repeat split; reflexivity.
Qed.

Lemma loadTool_point_spacing_witness :
  pt_spacing
    (NoetherScanPathPlanner_loadTool
       (fun key =>
          if String.eqb key "/process_planning_params/blend_params/discretization"
          then Some (2 / 100) else None))
  = 2 / 100.
Proof.
  destruct (loadTool_point_spacing
              (fun key =>
                 if String.eqb key "/process_planning_params/blend_params/discretization"
                 then Some (2 / 100) else None)
              (2 / 100) eq_refl) as (_ & H & _).
  exact H.
Defined.

(** ** Displacement and arc length *)

Lemma norm_triangle (u v : Vector3d) : norm (vadd u v) <= norm u + norm v.
Proof.
  unfold norm.
  pose proof (sqrt_pos (squaredNorm u)) as Hu.
  pose proof (sqrt_pos (squaredNorm v)) as Hv.
  pose proof (sqrt_sqrt _ (squaredNorm_nonneg u)) as Hsu.
  pose proof (sqrt_sqrt _ (squaredNorm_nonneg v)) as Hsv.
  set (nu := sqrt (squaredNorm u)) in *. set (nv := sqrt (squaredNorm v)) in *.
  apply Rsqr_incr_0_var; [|lra].
  rewrite Rsqr_sqrt by apply squaredNorm_nonneg.
  destruct u as [a b c], v as [d e f].
  unfold squaredNorm, vadd, Rsqr in *. cbn [vec_x vec_y vec_z] in *.
  assert (Hdot : a * d + b * e + c * f <= nu * nv).
  { destruct (Rle_dec (a * d + b * e + c * f) 0) as [Hneg|Hposd].
    - pose proof (Rmult_le_pos _ _ Hu Hv). lra.
    - apply Rsqr_incr_0_var; [|apply Rmult_le_pos; assumption].
      unfold Rsqr.
      replace (nu * nv * (nu * nv)) with ((nu * nu) * (nv * nv)) by ring.
      rewrite Hsu, Hsv.
      pose proof (Rle_0_sqr (a * e - b * d)). pose proof (Rle_0_sqr (a * f - c * d)).
      pose proof (Rle_0_sqr (b * f - c * e)). unfold Rsqr in *. nra. }
  nra.
Qed.

Lemma pointDistance_triangle (a b c : Affine3d) :
  pointDistance a c <= pointDistance a b + pointDistance b c.
Proof.
  unfold pointDistance.
  replace (vsub (translation a) (translation c))
    with (vadd (vsub (translation a) (translation b)) (vsub (translation b) (translation c))).
  - apply norm_triangle.
  - unfold vadd, vsub. cbn [vec_x vec_y vec_z]. apply vec3_eq; ring.
Qed.

Lemma back_cons (a b : Affine3d) (l : vector_Affine3d) : back (a :: b :: l) = back (b :: l).
Proof. unfold back, at_. simpl. rewrite Nat.sub_0_r. reflexivity. Qed.

(** X22.  The straight distance between the first and the last position of
    a segment, whose square [longestSegment] compares, is at most the arc
    length [segmentLength] that [applyMargins] measures. *)
Theorem displacement_at_most_arc_length (segment : vector_Affine3d) :
  segment <> [] ->
  pointDistance (back segment) (front segment) <= segmentLength segment
  /\ end_displacement segment <= segmentLength segment * segmentLength segment.
Proof.
  intros Hne.
  assert (Hd : pointDistance (back segment) (front segment) <= segmentLength segment).
  { destruct segment as [|a l]; [contradiction|]. clear Hne.
    revert a. induction l as [|b l IH]; intros a.
    - unfold back, front, at_, pointDistance, norm, squaredNorm, vsub. simpl.
      rewrite segmentLength_single.
      replace (_ + _ + _) with 0 by ring. rewrite sqrt_0. lra.
    - rewrite back_cons, segmentLength_cons.
      specialize (IH b).
      pose proof (pointDistance_triangle (back (b :: l)) b a) as Ht.
      change (front (a :: b :: l)) with a. change (front (b :: l)) with b in IH. lra. }
  split; [exact Hd|].
  unfold end_displacement.
  assert (Hsq : squaredNorm (vsub (translation (front segment)) (translation (back segment)))
                = pointDistance (back segment) (front segment)
                  * pointDistance (back segment) (front segment)).
  { unfold pointDistance, norm. rewrite sqrt_sqrt by apply squaredNorm_nonneg.
    unfold squaredNorm, vsub. cbn [vec_x vec_y vec_z]. ring. }
  rewrite Hsq.
  pose proof (pointDistance_nonneg (back segment) (front segment)). nra.
Qed.

Lemma displacement_at_most_arc_length_witness :
  pointDistance (back unit_steps) (front unit_steps) <= segmentLength unit_steps.
Proof.
  destruct (displacement_at_most_arc_length unit_steps) as (H & _).
  - discriminate.
  - exact H.
Defined.

Lemma loadTool_line_spacing_witness :
  1 / 100 <= line_spacing (NoetherBlendPathPlanner_loadTool no_parameters).
Proof.
  destruct (loadTool_line_spacing no_parameters) as (H & _).
  exact H.
Defined.
